(** * FastCopy: a shallow embedding of the parallel copy engine

    Sources: [src/src/index.ts] (ignore predicate, the counting and
    collecting walks, partitioning, the main coordinator) and
    [src/src/worker.ts] (the copy worker).

    Paths are kept as lists of path components relative to [sourceDir]:
    [path.relative(sourceDir, path.join(dir, entry.name))] followed by
    [split(path.sep)] gives back exactly these components, since a
    directory entry name never contains the separator.  The string form
    of a relative path is the components joined with the separator. *)

From Stdlib Require Import List String Ascii Arith NArith Lia Bool Permutation.
Import ListNotations.
Open Scope string_scope.
Open Scope list_scope.

(** ** Errors, as thrown and caught by the TypeScript code *)

Inductive result (A : Type) : Type :=
| Ok (a : A)
| Err (msg : string).
Arguments Ok {A} a.
Arguments Err {A} msg.

Definition rbind {A B} (r : result A) (k : A -> result B) : result B :=
  match r with
  | Ok a => k a
  | Err m => Err m
  end.

Notation "x <- r ;; k" := (rbind r (fun x => k))
  (at level 61, r at next level, right associativity).

(** ** Paths *)

Definition sep : string := "/".

(** [relativePath] as a string: the components joined by [path.sep]. *)
Definition rel_string (parts : list string) : string :=
  String.concat sep parts.

(** [Array.prototype.includes] on strings. *)
Definition includes (xs : list string) (x : string) : bool :=
  existsb (String.eqb x) xs.

(** ** 3. Ignore patterns (index.ts, lines 54-85) *)

Definition ignoredPaths : list string :=
  [ "node_modules"; ".pnpm-store"; "$RECYCLE.BIN";
    "System Volume Information"; ".next" ].

Definition shouldIgnore (parts : list string) (isDirectory : bool) : bool :=
  let relativePath := rel_string parts in
  if includes parts "System Volume Information" then true
  else if includes parts ".git" then true
  else if isDirectory then existsb (fun part => includes ignoredPaths part) parts
  else existsb (fun pattern => String.prefix pattern relativePath) ignoredPaths.

(** ** The source tree

    A directory entry is a file or a directory; the contents of a
    directory are what [fs.promises.readdir] returns for it: a listing,
    or [Unreadable] when [readdir] rejects (permission error, directory
    removed meanwhile). *)

#[local] Set Warnings "-register-all".

Inductive entry : Type :=
| EFile (name : string)
| EDir (name : string) (contents : dirents)
with dirents : Type :=
| Unreadable
| Listing (entries : list entry).

Definition readdir_error (dir : list string) : string :=
  "EACCES: permission denied, scandir '" ++ rel_string dir ++ "'".

(** ** 4. countFiles (index.ts, lines 96-114)

    [countFiles dir c]: [c] is what [readdir dir] sees.  The [for] loop
    over the entries, with [count] as its accumulator, is [countFiles_loop];
    a rejected [await] aborts the whole call. *)

Definition countFiles_loop (countFiles : list string -> dirents -> result nat)
  (dir : list string) : list entry -> nat -> result nat :=
  fix loop (es : list entry) (count : nat) {struct es} : result nat :=
    match es with
    | [] => Ok count
    | EDir n sub :: rest =>
        let fullPath := dir ++ [n] in
        if negb (shouldIgnore fullPath true) then
          k <- countFiles fullPath sub ;;
          loop rest (count + k)
        else loop rest count
    | EFile n :: rest =>
        let fullPath := dir ++ [n] in
        if negb (shouldIgnore fullPath false) then loop rest (count + 1)
        else loop rest count
    end.

Fixpoint countFiles (dir : list string) (c : dirents) {struct c} : result nat :=
  match c with
  | Unreadable => Err (readdir_error dir)
  | Listing entries => countFiles_loop countFiles dir entries 0
  end.

(** ** 5. collectFiles (index.ts, lines 121-138)

    The shared [result] array is threaded through: [push] appends at its
    end.  [dir] and [base] denote the same relative location ([base] is
    [dir] relative to [sourceDir]), so one component list serves both.
    The array parameter [result] is [result'] here. *)

Definition collectFiles_loop
  (collectFiles : list string -> dirents -> list (list string)
                  -> result (list (list string)))
  (dir : list string)
  : list entry -> list (list string) -> result (list (list string)) :=
  fix loop (es : list entry) (res : list (list string)) {struct es}
    : result (list (list string)) :=
    match es with
    | [] => Ok res
    | EDir n sub :: rest =>
        let relativePath := dir ++ [n] in
        if negb (shouldIgnore relativePath true) then
          res' <- collectFiles relativePath sub res ;;
          loop rest res'
        else loop rest res
    | EFile n :: rest =>
        let relativePath := dir ++ [n] in
        if negb (shouldIgnore relativePath false)
        then loop rest (res ++ [relativePath])
        else loop rest res
    end.

Fixpoint collectFiles (dir : list string) (c : dirents)
  (result' : list (list string)) {struct c} : result (list (list string)) :=
  match c with
  | Unreadable => Err (readdir_error dir)
  | Listing entries => collectFiles_loop collectFiles dir entries result'
  end.

(** ** Partitioning (index.ts, lines 174-178)

    [Math.ceil(len / numCPUs)] for [numCPUs > 0]; [Array.from] with
    [length: numCPUs] and [slice(i * chunkSize, (i + 1) * chunkSize)],
    [slice] clamping its bounds to the array. *)

Definition ceil_div (a b : nat) : nat := (a + b - 1) / b.

Definition slice {A} (l : list A) (start stop : nat) : list A :=
  firstn (stop - start) (skipn start l).

Definition make_chunks {A} (filesToCopy : list A) (numCPUs : nat) : list (list A) :=
  let chunkSize := ceil_div (List.length filesToCopy) numCPUs in
  map (fun i => slice filesToCopy (i * chunkSize) ((i + 1) * chunkSize))
      (seq 0 numCPUs).

(** ** worker.ts

    The worker's effects are threaded through a small state and error
    monad: the state records the messages posted to [parentPort], the
    state of that channel, and the file-system calls made.  An error is a
    thrown [Error] carrying its message; the state reached when it was
    thrown is kept, as side effects are not undone. *)

Definition LARGE_FILE_THRESHOLD : N := 10 * 1024 * 1024.
Definition BATCH_SIZE : nat := 100.

Inductive Message : Type :=
| MCopied (file : string)
| MSkipped (file : string) (error : string)
| MDone
| MError (error : string).

(** File-system calls, named by the relative file they are made for:
    [fs.ensureDir] of the destination's parent, [fs.stat] of the source,
    and the two copy routines. *)
Inductive FsCall : Type :=
| CEnsureDir (file : string)
| CStat (file : string)
| CCopy (file : string)
| CCopyFile (file : string).

(** What the (static) file system answers for one file: [None] is
    success, [Some msg] a rejection with that message. *)
Record FileIO : Type := {
  io_ensureDir : option string;
  io_stat : result N;
  io_copy : option string;
  io_copyFile : option string
}.

(** The worker's channel to the main thread: [None] never breaks,
    [Some k] accepts [k] more messages and then throws. *)
Record WState : Type := {
  posted : list Message;
  channel : option nat;
  trace : list FsCall
}.

Definition M (A : Type) : Type := WState -> result A * WState.

Definition mret {A} (a : A) : M A := fun s => (Ok a, s).

Definition mbind {A B} (m : M A) (k : A -> M B) : M B := fun s =>
  match m s with
  | (Ok a, s') => k a s'
  | (Err e, s') => (Err e, s')
  end.

Definition mthrow {A} (e : string) : M A := fun s => (Err e, s).

(** [try { m } catch (error) { h(error.message) }] *)
Definition mtry {A} (m : M A) (h : string -> M A) : M A := fun s =>
  match m s with
  | (Err e, s') => h e s'
  | r => r
  end.

Notation "'let*' x ':=' m 'in' k" := (mbind m (fun x => k))
  (at level 200, x name, m at level 100, k at level 200).

Definition channel_closed : string := "MessagePort was closed".

(** [parentPort?.postMessage(m)] *)
Definition postMessage (m : Message) : M unit := fun s =>
  match channel s with
  | None => (Ok tt, {| posted := posted s ++ [m]; channel := None; trace := trace s |})
  | Some 0 => (Err channel_closed, s)
  | Some (S k) =>
      (Ok tt, {| posted := posted s ++ [m]; channel := Some k; trace := trace s |})
  end.

Definition fs_call {A} (c : FsCall) (r : result A) : M A := fun s =>
  (r, {| posted := posted s; channel := channel s; trace := trace s ++ [c] |}).

Definition of_option (o : option string) : result unit :=
  match o with None => Ok tt | Some e => Err e end.

Section Worker.

Variable env : string -> FileIO.

Definition ensureDir (file : string) : M unit :=
  fs_call (CEnsureDir file) (of_option (io_ensureDir (env file))).

Definition stat (file : string) : M N :=
  fs_call (CStat file) (io_stat (env file)).

Definition fs_copy (file : string) : M unit :=
  fs_call (CCopy file) (of_option (io_copy (env file))).

Definition fs_copyFile (file : string) : M unit :=
  fs_call (CCopyFile file) (of_option (io_copyFile (env file))).

(** [copyFile] (worker.ts, lines 26-39). *)
Definition copyFile (file : string) : M unit :=
  mtry (let* size := stat file in
        if N.ltb LARGE_FILE_THRESHOLD size then fs_copy file else fs_copyFile file)
       (fun msg => mthrow ("Failed to copy file: " ++ msg)%string).

(** The body of [copyBatch]'s loop for one [file] (worker.ts, lines
    44-54); [console.error] is left out. *)
Definition copyBatch_step (file : string) : M unit :=
  mtry (let* _ := ensureDir file in
        let* _ := copyFile file in
        postMessage (MCopied file))
       (fun msg =>
          let errorMessage := ("Error copying " ++ file ++ ": " ++ msg)%string in
          postMessage (MSkipped file errorMessage)).

(** [copyBatch] (worker.ts, lines 42-56). *)
Fixpoint copyBatch (files : list string) : M unit :=
  match files with
  | [] => mret tt
  | file :: rest =>
      let* _ := copyBatch_step file in
      copyBatch rest
  end.

(** [for (let i = 0; i < chunk.length; i += BATCH_SIZE)] with
    [chunk.slice(i, i + BATCH_SIZE)]. *)
Definition batches (chunk : list string) : list (list string) :=
  map (fun k => slice chunk (k * BATCH_SIZE) (k * BATCH_SIZE + BATCH_SIZE))
      (seq 0 (ceil_div (List.length chunk) BATCH_SIZE)).

Fixpoint run_batches (bs : list (list string)) : M unit :=
  match bs with
  | [] => mret tt
  | b :: rest => let* _ := copyBatch b in run_batches rest
  end.

Definition worker_body (chunk : list string) : M unit :=
  let* _ := run_batches (batches chunk) in
  postMessage MDone.

(** The worker's async main and its [.catch] (worker.ts, lines 58-72):
    the exit code and the final state.  In the handler a failing
    [postMessage] rejects the handler's promise; the worker then dies of
    the unhandled rejection, with exit code 1 as well. *)
Definition worker_main (chunk : list string) (s : WState) : nat * WState :=
  match worker_body chunk s with
  | (Ok _, s') => (0, s')
  | (Err e, s') => (1, snd (postMessage (MError e) s'))
  end.

End Worker.

(** ** main (index.ts, lines 160-234) *)

Record Summary : Type := {
  totalFiles : nat;
  copiedFiles : nat;
  skippedFiles : nat
}.

(** Why [main()] rejected: an enumeration error, or the rejection of
    [Promise.all] by a worker that exited with a non-zero code. *)
Inductive AbortReason : Type :=
| EnumerationError (msg : string)
| WorkerExit (code : nat).

(** [Completed s]: the four summary lines are printed.
    [Aborted r]: [main().catch] logs ["Error in main execution:"] and
    calls [process.exit(1)]; nothing else is printed. *)
Inductive RunOutput : Type :=
| Completed (s : Summary)
| Aborted (r : AbortReason).

(** The [message] handler (lines 185-195) on the counters
    [(copiedFiles, skippedFiles)]. *)
Definition on_message (c : nat * nat) (m : Message) : nat * nat :=
  match m with
  | MCopied _ => (S (fst c), snd c)
  | MSkipped _ _ => (fst c, S (snd c))
  | _ => c
  end.

(** Counting, collecting and partitioning (lines 166-178): [totalFiles]
    and the chunks handed to [spawnWorker], one worker per chunk
    (line 181). *)
Definition plan (sourceRoot : dirents) (numCPUs : nat)
  : result (nat * list (list string)) :=
  total <- countFiles [] sourceRoot ;;
  filesToCopy <- collectFiles [] sourceRoot [] ;;
  Ok (total, make_chunks (map rel_string filesToCopy) numCPUs).

Definition init_state (ch : option nat) : WState :=
  {| posted := []; channel := ch; trace := [] |}.

(** Worker [k + j] runs over the [j]-th of [chunks] with its own channel
    [chans (k + j)]. *)
Definition workers_from (env : string -> FileIO) (chans : nat -> option nat)
  (k : nat) (chunks : list (list string)) : list (nat * WState) :=
  map (fun ic => worker_main env (snd ic) (init_state (chans (fst ic))))
      (combine (seq k (List.length chunks)) chunks).

Definition run_workers (env : string -> FileIO) (chans : nat -> option nat)
  (chunks : list (list string)) : list (nat * WState) :=
  workers_from env chans 0 chunks.

Fixpoint first_failure (codes : list nat) : option nat :=
  match codes with
  | [] => None
  | 0 :: rest => first_failure rest
  | c :: _ => Some c
  end.

(** Messages of different workers interleave arbitrarily; the counters
    only add up, so they are folded here worker after worker.  The
    [Promise.all] join rejects as soon as a worker exits with a non-zero
    code; which one is reported first depends on timing. *)
Definition main (sourceRoot : dirents) (numCPUs : nat)
  (env : string -> FileIO) (chans : nat -> option nat) : RunOutput :=
  match plan sourceRoot numCPUs with
  | Err e => Aborted (EnumerationError e)
  | Ok (total, chunks) =>
      let results := run_workers env chans chunks in
      let msgs := List.concat (map (fun r => posted (snd r)) results) in
      let counters := fold_left on_message msgs (0, 0) in
      match first_failure (map fst results) with
      | Some code => Aborted (WorkerExit code)
      | None =>
          Completed {| totalFiles := total;
                       copiedFiles := fst counters;
                       skippedFiles := snd counters |}
      end
  end.

(** ** Command-line arguments (index.ts, lines 16-34) *)

(** [String.prototype.split] with a one-character separator: the pieces
    between its occurrences; the empty string gives one empty piece. *)
Fixpoint split_on (c : ascii) (s : string) : list string :=
  match s with
  | EmptyString => [EmptyString]
  | String a s' =>
      let rest := split_on c s' in
      if Ascii.eqb a c then EmptyString :: rest
      else match rest with
           | [] => [String a EmptyString]
           | r :: rs => String a r :: rs
           end
  end.

(** The line terminators of ASCII, which [.] in a regular expression does
    not match. *)
Definition line_terminator (a : ascii) : bool :=
  Ascii.eqb a "010"%char || Ascii.eqb a "013"%char.

(** [v.replace(re, '$1')] where [re] is anchored at both ends and is the
    quote character [q], a captured run of any characters, and [q] again:
    it matches a string of at least two characters that starts and ends
    with [q] and has no line terminator in between, and replaces it with
    what lies in between. *)
Definition unwrap (q : ascii) (v : string) : string :=
  match list_ascii_of_string v with
  | a :: rest =>
      match rev rest with
      | b :: rmid =>
          if Ascii.eqb a q && Ascii.eqb b q
             && forallb (fun x => negb (line_terminator x)) rmid
          then string_of_list_ascii (rev rmid)
          else v
      | [] => v
      end
  | [] => v
  end.

Definition double_quote : ascii := "034"%char.
Definition single_quote : ascii := "039"%char.

(** [cleanedValue] (line 20): double quotes are removed first, then
    single quotes. *)
Definition clean_value (value : string) : string :=
  unwrap single_quote (unwrap double_quote value).

(** [key.replace(/^--/, '')] *)
Definition strip_dashes (key : string) : string :=
  match key with
  | String a (String b rest) =>
      if Ascii.eqb a "-"%char && Ascii.eqb b "-"%char then rest else key
  | _ => key
  end.

(** The object [acc] of the [reduce]: its own properties, the latest
    assignment first.  [acc['__proto__'] = v] with a string [v] runs the
    [__proto__] setter, which ignores a value that is not an object. *)
Definition obj_set (acc : list (string * string)) (k v : string)
  : list (string * string) :=
  if String.eqb k "__proto__" then acc
  else (k, v) :: filter (fun kv => negb (String.eqb (fst kv) k)) acc.

(** [acc[k]]; [Object.prototype] has no [source] or [destination]
    property. *)
Definition obj_get (acc : list (string * string)) (k : string) : option string :=
  match find (fun kv => String.eqb (fst kv) k) acc with
  | Some kv => Some (snd kv)
  | None => None
  end.

(** The [reduce] callback (lines 16-24): [const [key, value] =
    arg.split('=')] and [if (key && value)], both strings non-empty. *)
Definition parse_arg (acc : list (string * string)) (arg : string)
  : list (string * string) :=
  match split_on "="%char arg with
  | key :: value :: _ =>
      if negb (String.eqb key EmptyString) && negb (String.eqb value EmptyString)
      then obj_set acc (strip_dashes key) (clean_value value)
      else acc
  | _ => acc
  end.

(** [process.argv.slice(2).reduce(..., {})]: [argv] is the user's
    arguments. *)
Definition parse_args (argv : list string) : list (string * string) :=
  fold_left parse_arg argv [].

(** [args[k] ?? ''] *)
Definition arg_value (argv : list string) (k : string) : string :=
  match obj_get (parse_args argv) k with
  | Some v => v
  | None => EmptyString
  end.

Section Normalize.

(** Node's posix [path.normalize]: its resolution of the segments
    ([normalizeString(path, allowAboveRoot, ...)], which drops [.] and
    empty segments and resolves [..]) is left abstract; the wrapper
    around it is written out. *)
Variable normalizeString : string -> bool -> string.

Definition path_normalize (p : string) : string :=
  match list_ascii_of_string p with
  | [] => "."
  | c0 :: _ =>
      let isAbsolute := Ascii.eqb c0 "/"%char in
      let trailingSeparator :=
        match rev (list_ascii_of_string p) with
        | c :: _ => Ascii.eqb c "/"%char
        | [] => false
        end in
      let p' := normalizeString p (negb isAbsolute) in
      if String.eqb p' EmptyString then
        (if isAbsolute then "/" else if trailingSeparator then "./" else ".")
      else
        let p'' := if trailingSeparator then (p' ++ "/")%string else p' in
        if isAbsolute then ("/" ++ p'')%string else p''
  end.

(** What the top of index.ts does with the arguments (lines 27-34):
    print the error and exit with code 1, or go on with the two
    directories. *)
Inductive Startup : Type :=
| StartupError (msg : string)
| Start (sourceDir destinationDir : string).

Definition startup (argv : list string) : Startup :=
  let sourceDir := path_normalize (arg_value argv "source") in
  let destinationDir := path_normalize (arg_value argv "destination") in
  if String.eqb sourceDir EmptyString || String.eqb destinationDir EmptyString
  then StartupError "Error: Both --source and --destination arguments are required."
  else Start sourceDir destinationDir.

End Normalize.

(** ** Sample trees *)

(** The spec's scenario: [a.txt], [node_modules/x.txt], [sub/b.txt]. *)
Definition scenario_tree : dirents :=
  Listing [ EFile "a.txt";
            EDir "node_modules" (Listing [EFile "x.txt"]);
            EDir "sub" (Listing [EFile "b.txt"]) ].

Definition all_ok : string -> FileIO := fun _ =>
  {| io_ensureDir := None; io_stat := Ok 5%N; io_copy := None; io_copyFile := None |}.

Definition no_break : nat -> option nat := fun _ => None.

(** ** Induction over directory trees *)

Section DirentsInd.

Variable P : dirents -> Prop.
Hypothesis P_unreadable : P Unreadable.
Hypothesis P_listing : forall es,
  Forall (fun e => match e with EDir _ c => P c | EFile _ => True end) es ->
  P (Listing es).

Fixpoint dirents_ind' (c : dirents) : P c :=
  match c with
  | Unreadable => P_unreadable
  | Listing es =>
      P_listing es
        ((fix go (es : list entry) :
            Forall (fun e => match e with EDir _ c => P c | EFile _ => True end) es :=
            match es with
            | [] => Forall_nil _
            | e :: rest =>
                Forall_cons e
                  (match e return match e with EDir _ c => P c | EFile _ => True end with
                   | EDir _ c => dirents_ind' c
                   | EFile _ => I
                   end)
                  (go rest)
            end) es)
  end.

End DirentsInd.

(** ** Specification-side definitions and sample inputs *)

(** What the counting pass and the collecting pass produce, started with
    counter [count] and array [acc], correspond: the same error, or a
    count that grew by the number of paths pushed. *)
Definition walks_agree (rc : result nat) (rl : result (list (list string)))
  (count : nat) (acc : list (list string)) : Prop :=
  match rc, rl with
  | Ok n, Ok r => exists l, r = acc ++ l /\ n = count + List.length l
  | Err e1, Err e2 => e1 = e2
  | _, _ => False
  end.

(** Whether all three file-system steps for [file] succeed: creating the
    destination directory, [stat], and the copy routine the size selects. *)
Definition copy_succeeds (io : FileIO) : bool :=
  match io_ensureDir io, io_stat io with
  | None, Ok size =>
      match (if N.ltb LARGE_FILE_THRESHOLD size then io_copy io else io_copyFile io) with
      | None => true
      | Some _ => false
      end
  | _, _ => false
  end.

(** The outcome event expected for [file]: [copied] when every step
    succeeds, otherwise [skipped] with a reason naming the file. *)
Definition event_for (env : string -> FileIO) (file : string) (ev : Message) : Prop :=
  match ev with
  | MCopied f => f = file /\ copy_succeeds (env file) = true
  | MSkipped f reason =>
      f = file /\ copy_succeeds (env file) = false /\
      exists msg, reason = ("Error copying " ++ file ++ ": " ++ msg)%string
  | _ => False
  end.

(** The channel after [n] successful posts. *)
Definition chan_after (ch : option nat) (n : nat) : option nat :=
  match ch with
  | None => None
  | Some k => Some (k - n)
  end.

(** The channel accepts [n] more posts. *)
Definition chan_room (ch : option nat) (n : nat) : Prop :=
  match ch with
  | None => True
  | Some k => n <= k
  end.

(** A file system on which [b.txt] cannot be read. *)
Definition b_unreadable : string -> FileIO := fun f =>
  if String.eqb f "b.txt"
  then {| io_ensureDir := None; io_stat := Err "EACCES: permission denied";
          io_copy := None; io_copyFile := None |}
  else all_ok f.

(** Number of outcome events ([copied] or [skipped]) in a message list. *)
Fixpoint count_outcomes (ms : list Message) : nat :=
  match ms with
  | [] => 0
  | MCopied _ :: rest | MSkipped _ _ :: rest => S (count_outcomes rest)
  | _ :: rest => count_outcomes rest
  end.

(** The claim C3 as stated: an empty file list gives zero chunks, hence
    zero workers. *)
Definition empty_gives_no_chunks : Prop :=
  forall root numCPUs, 0 < numCPUs -> collectFiles [] root [] = Ok [] ->
  exists total, plan root numCPUs = Ok (total, []).

(** Worker 0's channel is broken from the start. *)
Definition first_channel_broken : nat -> option nat :=
  fun i => if Nat.eqb i 0 then Some 0 else None.

(** A tree with an unreadable subdirectory next to a file. *)
Definition locked_tree : dirents :=
  Listing [EFile "a.txt"; EDir "locked" Unreadable].

(** A name the predicate excludes wherever it stands in a directory path:
    an [ignoredPaths] entry or [.git]. *)
Definition is_ignore_name (x : string) : bool :=
  includes ignoredPaths x || String.eqb x ".git".

(** A collected path lies under no ignore-named directory, and contains
    neither [.git] nor [System Volume Information]. *)
Definition clear_path (p : list string) : Prop :=
  (forall x, In x (removelast p) -> is_ignore_name x = false) /\
  (forall x, In x p -> x <> ".git" /\ x <> "System Volume Information").

(** The claim C8 as stated: no component of a collected path is an
    ignore name. *)
Definition no_ignore_component : Prop :=
  forall root files p x,
    collectFiles [] root [] = Ok files -> In p files -> In x p ->
    is_ignore_name x = false.

(** A file named [node_modules] inside [sub]. *)
Definition nm_file_tree : dirents :=
  Listing [EDir "sub" (Listing [EFile "node_modules"])].

(** The claim C10 as stated, including that neither name is listed in
    [ignoredPaths]. *)
Definition git_svi_claim : Prop :=
  (forall parts isDirectory,
     In ".git" parts \/ In "System Volume Information" parts ->
     shouldIgnore parts isDirectory = true) /\
  ~ In ".git" ignoredPaths /\ ~ In "System Volume Information" ignoredPaths.

(** A string without the character [c]. *)
Definition no_char (c : ascii) (s : string) : bool :=
  forallb (fun a => negb (Ascii.eqb a c)) (list_ascii_of_string s).

(** A character that neither [split('=')] nor the quote removal acts on. *)
Definition plain_char (a : ascii) : bool :=
  negb (Ascii.eqb a "="%char) && negb (Ascii.eqb a double_quote)
  && negb (Ascii.eqb a single_quote) && negb (line_terminator a).

(** [v] between two quote characters [q]. *)
Definition quoted (q : ascii) (v : string) : string :=
  String q (v ++ String q EmptyString).

(** The name of a directory entry. *)
Definition entry_name (e : entry) : string :=
  match e with
  | EFile n | EDir n _ => n
  end.

Definition listing_names (c : dirents) : list string :=
  match c with
  | Listing es => map entry_name es
  | Unreadable => []
  end.

(** A directory entry name never contains the separator. *)
Definition name_ok (n : string) : bool := no_char "/"%char n.

Fixpoint distinct_names (ns : list string) : bool :=
  match ns with
  | [] => true
  | n :: rest => negb (includes rest n) && distinct_names rest
  end.

Definition well_named_loop (rec : dirents -> bool) : list entry -> bool :=
  fix go (es : list entry) : bool :=
    match es with
    | [] => true
    | EFile _ :: rest => go rest
    | EDir _ c :: rest => rec c && go rest
    end.

(** A tree as a file system has it: in every directory the entries have
    distinct names, none of which contains the separator. *)
Fixpoint well_named (c : dirents) : bool :=
  match c with
  | Unreadable => true
  | Listing es =>
      distinct_names (map entry_name es)
      && forallb (fun e => name_ok (entry_name e)) es
      && well_named_loop well_named es
  end.

(** The number of files of [files] whose copy succeeds, and fails. *)
Definition count_copied (env : string -> FileIO) (files : list string) : nat :=
  List.length (filter (fun f => copy_succeeds (env f)) files).

Definition count_skipped (env : string -> FileIO) (files : list string) : nat :=
  List.length (filter (fun f => negb (copy_succeeds (env f))) files).

(** The file-system calls made for one file: each step only after the
    previous one succeeded. *)
Definition file_calls (env : string -> FileIO) (file : string) : list FsCall :=
  match io_ensureDir (env file) with
  | Some _ => [CEnsureDir file]
  | None =>
      match io_stat (env file) with
      | Err _ => [CEnsureDir file; CStat file]
      | Ok size =>
          [CEnsureDir file; CStat file;
           if N.ltb LARGE_FILE_THRESHOLD size then CCopy file else CCopyFile file]
      end
  end.


(** ** The spec's scenario, evaluated *)

Example scenario_plan :
  plan scenario_tree 2 = Ok (2, [["a.txt"]; ["sub/b.txt"]]).
Proof. vm_compute. reflexivity. Qed.

Example scenario_run :
  main scenario_tree 2 all_ok no_break
  = Completed {| totalFiles := 2; copiedFiles := 2; skippedFiles := 0 |}.
Proof. vm_compute. reflexivity. Qed.

(** ** The two walks agree (C7) *)

Lemma walks_agree_dirents : forall c dir acc,
  walks_agree (countFiles dir c) (collectFiles dir c acc) 0 acc.
Proof.
  induction c as [|es Hes] using dirents_ind'; intros dir acc; simpl.
  - reflexivity.
  - assert (Hloop : forall count res,
      walks_agree (countFiles_loop countFiles dir es count)
                  (collectFiles_loop collectFiles dir es res) count res).
    { induction Hes as [|e es He Hes IH]; intros count res; simpl.
      - exists []. rewrite app_nil_r. split; [reflexivity | simpl; lia].
      - destruct e as [n|n sub]; simpl.
        + destruct (negb (shouldIgnore (dir ++ [n]) false)).
          * specialize (IH (count + 1) (res ++ [dir ++ [n]])).
            destruct (countFiles_loop countFiles dir es (count + 1));
              destruct (collectFiles_loop collectFiles dir es (res ++ [dir ++ [n]]));
              simpl in *; try contradiction; auto.
            destruct IH as [l [-> ->]].
            exists ([dir ++ [n]] ++ l). rewrite app_assoc. simpl. split; [reflexivity | lia].
          * apply IH.
        + destruct (negb (shouldIgnore (dir ++ [n]) true)); [|apply IH].
          specialize (He (dir ++ [n]) res).
          destruct (countFiles (dir ++ [n]) sub) as [k|e1];
            destruct (collectFiles (dir ++ [n]) sub res) as [r|e2];
            simpl in He |- *; try contradiction; [|exact He].
          destruct He as [l1 [-> ->]]. simpl.
          specialize (IH (count + List.length l1) (res ++ l1)).
          destruct (countFiles_loop countFiles dir es (count + List.length l1)) as [m|e3];
            destruct (collectFiles_loop collectFiles dir es (res ++ l1)) as [r2|e4];
            simpl in IH |- *; try contradiction; [|exact IH].
          destruct IH as [l2 [-> ->]].
          exists (l1 ++ l2). rewrite app_assoc, length_app. split; [reflexivity | lia]. }
    apply Hloop.
Qed.

(** The counting pass is the length of the collecting pass, error for
    error. *)
Lemma countFiles_as_collect (dir : list string) (c : dirents) :
  countFiles dir c = (l <- collectFiles dir c [] ;; Ok (List.length l)).
Proof.
  pose proof (walks_agree_dirents c dir []) as H.
  destruct (countFiles dir c); destruct (collectFiles dir c []); simpl in *;
    try contradiction; subst; auto.
  destruct H as [l' [-> ->]]. reflexivity.
Qed.

(** C7: the count published as [totalFiles] is the length of the list the
    collection pass builds; both passes fail alike on an unreadable
    directory. *)
Lemma countFiles_collectFiles (dir : list string) (c : dirents) :
  countFiles dir c = (l <- collectFiles dir c [] ;; Ok (List.length l)).
Proof.
  pose proof (walks_agree_dirents c dir []) as H.
  destruct (countFiles dir c); destruct (collectFiles dir c []); simpl in *;
    try contradiction; subst; auto.
  destruct H as [l' [-> ->]]. reflexivity.
Qed.

(** ** Partitioning (C2) *)

Lemma ceil_div_upper (len n : nat) : 0 < n -> len <= n * ceil_div len n.
Proof.
  intros Hn. unfold ceil_div.
  pose proof (Nat.div_mod_eq (len + n - 1) n) as Hdm.
  pose proof (Nat.mod_upper_bound (len + n - 1) n ltac:(lia)) as Hmod.
  lia.
Qed.

Lemma ceil_div_least (len n c' : nat) :
  0 < n -> len <= n * c' -> ceil_div len n <= c'.
Proof.
  intros Hn Hc. unfold ceil_div.
  pose proof (Nat.Div0.mul_div_le (len + n - 1) n) as Hle.
  destruct (Nat.le_gt_cases ((len + n - 1) / n) c') as [H|H]; [exact H|].
  exfalso. assert (n * S c' <= n * ((len + n - 1) / n)) by (apply Nat.mul_le_mono_l; lia).
  lia.
Qed.

Lemma firstn_add {A} (x y : nat) (L : list A) :
  firstn x L ++ firstn y (skipn x L) = firstn (x + y) L.
Proof.
  revert L; induction x as [|x IH]; intros L; simpl; [reflexivity|].
  destruct L as [|a L]; simpl.
  - rewrite firstn_nil. reflexivity.
  - f_equal. apply IH.
Qed.

Lemma slice_app {A} (l : list A) (a b d : nat) :
  a <= b -> b <= d -> slice l a b ++ slice l b d = slice l a d.
Proof.
  intros Hab Hbd. unfold slice.
  replace (skipn b l) with (skipn (b - a) (skipn a l))
    by (rewrite skipn_skipn; f_equal; lia).
  rewrite firstn_add. f_equal. lia.
Qed.

Lemma length_slice {A} (l : list A) (a b : nat) :
  List.length (slice l a b) = Nat.min (b - a) (List.length l - a).
Proof. unfold slice. rewrite length_firstn, length_skipn. reflexivity. Qed.

Lemma concat_slices {A} (l : list A) (c m k : nat) :
  List.concat (map (fun i => slice l (i * c) ((i + 1) * c)) (seq k m))
  = slice l (k * c) ((k + m) * c).
Proof.
  revert k; induction m as [|m IH]; intros k; simpl.
  - unfold slice. rewrite Nat.add_0_r, Nat.sub_diag. reflexivity.
  - rewrite IH. replace (S k * c) with ((k + 1) * c) by lia.
    replace ((k + S m) * c) with ((S k + m) * c) by (f_equal; lia).
    apply slice_app; nia.
Qed.

Lemma length_make_chunks {A} (l : list A) (n : nat) :
  List.length (make_chunks l n) = n.
Proof. unfold make_chunks. rewrite length_map, length_seq. reflexivity. Qed.

Lemma nth_make_chunks {A} (l : list A) (n i : nat) :
  i < n ->
  nth i (make_chunks l n) []
  = slice l (i * ceil_div (List.length l) n) ((i + 1) * ceil_div (List.length l) n).
Proof.
  intros Hi. unfold make_chunks.
  set (f := fun i0 => slice l (i0 * ceil_div (List.length l) n)
                               ((i0 + 1) * ceil_div (List.length l) n)).
  rewrite (nth_indep _ [] (f 0)) by (rewrite length_map, length_seq; exact Hi).
  rewrite map_nth, seq_nth by exact Hi. reflexivity.
Qed.

Lemma concat_make_chunks {A} (l : list A) (n : nat) :
  0 < n -> List.concat (make_chunks l n) = l.
Proof.
  intros Hn. unfold make_chunks. rewrite concat_slices. simpl.
  unfold slice. rewrite Nat.sub_0_r. simpl.
  apply firstn_all2. pose proof (ceil_div_upper (List.length l) n Hn). lia.
Qed.

(** C2: the [numCPUs] chunks are the consecutive slices of width
    [chunkSize = ceil(len / numCPUs)] (the least width whose [numCPUs]
    copies cover the list); their sizes never grow from one chunk to the
    next, and their concatenation is the input list itself, so every
    entry lands in exactly one chunk. *)
Theorem make_chunks_partition {A} (l : list A) (numCPUs : nat) (Hn : 0 < numCPUs) :
  let chunkSize := ceil_div (List.length l) numCPUs in
  let chunks := make_chunks l numCPUs in
  (List.length l <= numCPUs * chunkSize /\
   forall c', List.length l <= numCPUs * c' -> chunkSize <= c') /\
  List.length chunks = numCPUs /\
  (forall i, i < numCPUs ->
     nth i chunks [] = firstn chunkSize (skipn (i * chunkSize) l)) /\
  (forall i j, i <= j -> j < numCPUs ->
     List.length (nth j chunks []) <= List.length (nth i chunks []) /\
     List.length (nth i chunks []) <= chunkSize) /\
  List.concat chunks = l.
Proof.
  intros chunkSize chunks.
  split; [split|].
  { apply ceil_div_upper; exact Hn. }
  { intros c'. apply ceil_div_least; exact Hn. }
  split; [apply length_make_chunks|].
  split.
  { intros i Hi. unfold chunks. rewrite nth_make_chunks by exact Hi.
    unfold slice. f_equal. fold chunkSize. lia. }
  split.
  { intros i j Hij Hj. unfold chunks.
    rewrite !nth_make_chunks by lia. rewrite !length_slice. fold chunkSize.
    split; [|lia].
    assert (i * chunkSize <= j * chunkSize) by (apply Nat.mul_le_mono_r; exact Hij).
    replace ((j + 1) * chunkSize - j * chunkSize) with chunkSize by lia.
    replace ((i + 1) * chunkSize - i * chunkSize) with chunkSize by lia.
    lia. }
  apply concat_make_chunks; exact Hn.
Qed.

Lemma make_chunks_partition_witness :
  0 < 4 /\ List.length (make_chunks [1; 2; 3; 4; 5] 4) = 4 /\
  List.concat (make_chunks [1; 2; 3; 4; 5] 4) = [1; 2; 3; 4; 5].
Proof.
  split; [lia|].
  destruct (make_chunks_partition [1; 2; 3; 4; 5] 4 ltac:(lia))
    as [_ [Hlen [_ [_ Hcat]]]].
  split; [exact Hlen | exact Hcat].
Defined.

(** ** The copy worker *)

Lemma copyBatch_step_spec env file st :
  match copyBatch_step env file st with
  | (Ok _, st') =>
      chan_room (channel st) 1 /\ channel st' = chan_after (channel st) 1 /\
      exists ev, posted st' = posted st ++ [ev] /\ event_for env file ev
  | (Err _, st') => channel st = Some 0
  end.
Proof.
  destruct st as [p ch tr].
  unfold copyBatch_step, copyFile, ensureDir, stat, fs_copy, fs_copyFile,
    fs_call, postMessage, mtry, mbind, mthrow, mret, event_for, copy_succeeds.
  destruct (env file) as [ed stt cp cpf]; simpl.
  destruct ch as [[|k]|]; simpl;
    destruct ed; simpl; try destruct stt as [size|e]; simpl;
    try destruct (N.ltb LARGE_FILE_THRESHOLD size); simpl;
    try destruct cp; try destruct cpf; simpl;
    try reflexivity;
    (split; [lia || exact I|]); (split; [first [reflexivity | f_equal; lia]|]);
    eexists; (split; [reflexivity|]); simpl;
    repeat split; try (eexists; reflexivity).
Qed.

Lemma chan_step (ch : option nat) (n : nat) :
  chan_room ch 1 -> chan_room (chan_after ch 1) n ->
  chan_room ch (S n) /\ chan_after (chan_after ch 1) n = chan_after ch (S n).
Proof.
  destruct ch as [k|]; simpl; intros; [split; [lia | f_equal; lia] | auto].
Qed.

Lemma chan_room_app (ch : option nat) (n m : nat) :
  chan_room ch n -> chan_room (chan_after ch n) m ->
  chan_room ch (n + m) /\ chan_after (chan_after ch n) m = chan_after ch (n + m).
Proof.
  destruct ch as [k|]; simpl; intros; [split; [lia | f_equal; lia] | auto].
Qed.

Lemma copyBatch_spec env files : forall st,
  match copyBatch env files st with
  | (Ok _, st') =>
      chan_room (channel st) (List.length files) /\
      channel st' = chan_after (channel st) (List.length files) /\
      exists evs, posted st' = posted st ++ evs /\ Forall2 (event_for env) files evs
  | (Err _, _) => exists k, channel st = Some k /\ k < List.length files
  end.
Proof.
  induction files as [|file rest IH]; intros st; simpl.
  - split; [destruct (channel st); simpl; auto; lia|].
    split; [destruct (channel st); simpl; auto; f_equal; lia|].
    exists []. rewrite app_nil_r. auto.
  - unfold mbind.
    pose proof (copyBatch_step_spec env file st) as Hs.
    destruct (copyBatch_step env file st) as [[u|e] s1].
    + destruct Hs as [Hr1 [Hc1 [ev [Hp1 Hev]]]].
      specialize (IH s1).
      destruct (copyBatch env rest s1) as [[u2|e2] s2].
      * destruct IH as [Hr2 [Hc2 [evs [Hp2 Hevs]]]].
        rewrite Hc1 in Hr2, Hc2.
        destruct (chan_step (channel st) (List.length rest) Hr1 Hr2) as [Hr Hc].
        split; [exact Hr|]. split; [congruence|].
        exists (ev :: evs). split; [rewrite Hp2, Hp1, <- app_assoc; reflexivity|].
        constructor; assumption.
      * destruct IH as [k [Hk Hlt]]. rewrite Hc1 in Hk.
        destruct (channel st) as [k0|]; simpl in Hr1, Hk; inversion Hk; subst.
        exists k0. split; [reflexivity | lia].
    + exists 0. split; [exact Hs | lia].
Qed.

Lemma run_batches_spec env bs : forall st,
  match run_batches env bs st with
  | (Ok _, st') =>
      chan_room (channel st) (List.length (List.concat bs)) /\
      channel st' = chan_after (channel st) (List.length (List.concat bs)) /\
      exists evs, posted st' = posted st ++ evs /\
                  Forall2 (event_for env) (List.concat bs) evs
  | (Err _, _) => exists k, channel st = Some k /\ k < List.length (List.concat bs)
  end.
Proof.
  induction bs as [|b rest IH]; intros st; simpl.
  - split; [destruct (channel st); simpl; auto; lia|].
    split; [destruct (channel st); simpl; auto; f_equal; lia|].
    exists []. rewrite app_nil_r. auto.
  - unfold mbind.
    pose proof (copyBatch_spec env b st) as Hs.
    destruct (copyBatch env b st) as [[u|e] s1].
    + destruct Hs as [Hr1 [Hc1 [evs1 [Hp1 Hev1]]]].
      specialize (IH s1).
      destruct (run_batches env rest s1) as [[u2|e2] s2].
      * destruct IH as [Hr2 [Hc2 [evs2 [Hp2 Hevs2]]]].
        rewrite Hc1 in Hr2, Hc2.
        destruct (chan_room_app (channel st) _ _ Hr1 Hr2) as [Hr Hc].
        rewrite length_app.
        split; [exact Hr|]. split; [congruence|].
        exists (evs1 ++ evs2). split; [rewrite Hp2, Hp1, <- app_assoc; reflexivity|].
        apply Forall2_app; assumption.
      * destruct IH as [k [Hk Hlt]]. rewrite Hc1 in Hk. rewrite length_app.
        destruct (channel st) as [k0|]; simpl in Hr1, Hk; inversion Hk; subst.
        exists k0. split; [reflexivity | lia].
    + destruct Hs as [k [Hk Hlt]]. exists k. rewrite length_app. split; [exact Hk | lia].
Qed.

Lemma concat_batches (chunk : list string) : List.concat (batches chunk) = chunk.
Proof.
  unfold batches.
  rewrite (map_ext _ (fun i => slice chunk (i * BATCH_SIZE) ((i + 1) * BATCH_SIZE)))
    by (intros; f_equal; lia).
  rewrite concat_slices. unfold slice.
  rewrite Nat.mul_0_l, Nat.add_0_l, Nat.sub_0_r. cbn [skipn].
  apply firstn_all2.
  pose proof (ceil_div_upper (List.length chunk) BATCH_SIZE ltac:(unfold BATCH_SIZE; lia)).
  lia.
Qed.

Lemma postMessage_closed m s :
  channel s = Some 0 -> postMessage m s = (Err channel_closed, s).
Proof. intros H. unfold postMessage. rewrite H. reflexivity. Qed.

Lemma postMessage_open m s :
  channel s <> Some 0 ->
  exists s', postMessage m s = (Ok tt, s') /\ posted s' = posted s ++ [m].
Proof.
  intros H. unfold postMessage.
  destruct (channel s) as [[|k]|]; [congruence | eexists; split; reflexivity
                                     | eexists; split; reflexivity].
Qed.

(** The worker either exits with code 0 after posting one outcome event per
    file of its chunk, in chunk order, followed by [done]; or its channel
    breaks before the [done] message and it exits with code 1. *)
Lemma worker_main_spec env chunk st :
  (fst (worker_main env chunk st) = 0 /\
   chan_room (channel st) (S (List.length chunk)) /\
   exists evs, posted (snd (worker_main env chunk st)) = posted st ++ evs ++ [MDone] /\
               Forall2 (event_for env) chunk evs)
  \/
  (fst (worker_main env chunk st) = 1 /\
   exists k, channel st = Some k /\ k <= List.length chunk).
Proof.
  unfold worker_main, worker_body, mbind.
  pose proof (run_batches_spec env (batches chunk) st) as H.
  rewrite concat_batches in H.
  destruct (run_batches env (batches chunk) st) as [[u|e] s1].
  - destruct H as [Hr [Hc [evs [Hp Hevs]]]].
    destruct (channel st) as [k|] eqn:Ech; simpl in Hr, Hc |- *.
    + destruct (k - List.length chunk) as [|k'] eqn:Ek.
      * rewrite (postMessage_closed MDone s1 Hc). simpl.
        right. split; [reflexivity|]. exists k. split; [reflexivity | lia].
      * destruct (postMessage_open MDone s1 ltac:(congruence)) as [s2 [E2 Hp2]].
        rewrite E2. simpl.
        left. split; [reflexivity|]. split; [lia|].
        exists evs. split; [rewrite Hp2, Hp, <- app_assoc; reflexivity | exact Hevs].
    + destruct (postMessage_open MDone s1 ltac:(congruence)) as [s2 [E2 Hp2]].
      rewrite E2. simpl.
      left. split; [reflexivity|]. split; [exact I|].
      exists evs. split; [rewrite Hp2, Hp, <- app_assoc; reflexivity | exact Hevs].
  - right. simpl. split; [reflexivity|].
    destruct H as [k [Hk Hlt]]. exists k. split; [exact Hk | lia].
Qed.

(** C6: with its channel intact, a worker posts exactly one outcome event
    per file of its chunk, in chunk order: [copied] when ensuring the
    directory, [stat] and the selected copy all succeed, and otherwise
    [skipped] with the reason ["Error copying <file>: <message>"]; then
    it posts [done] and exits with code 0, whatever failed before. *)
Theorem worker_one_event_per_file (env : string -> FileIO) (chunk : list string)
  (st : WState) (Hch : channel st = None) :
  fst (worker_main env chunk st) = 0 /\
  exists evs,
    posted (snd (worker_main env chunk st)) = posted st ++ evs ++ [MDone] /\
    Forall2 (event_for env) chunk evs.
Proof.
  destruct (worker_main_spec env chunk st) as [[H0 [_ Hevs]] | [_ [k [Hk _]]]].
  - split; [exact H0 | exact Hevs].
  - congruence.
Qed.

Lemma worker_one_event_per_file_witness :
  channel (init_state None) = None /\
  fst (worker_main b_unreadable ["a.txt"; "b.txt"; "c.txt"] (init_state None)) = 0 /\
  posted (snd (worker_main b_unreadable ["a.txt"; "b.txt"; "c.txt"] (init_state None)))
  = [MCopied "a.txt";
     MSkipped "b.txt" "Error copying b.txt: Failed to copy file: EACCES: permission denied";
     MCopied "c.txt"; MDone].
Proof.
  split; [reflexivity|].
  split; [apply (worker_one_event_per_file b_unreadable ["a.txt"; "b.txt"; "c.txt"]
                   (init_state None) eq_refl) |].
  vm_compute. reflexivity.
Defined.

(** C9: once [stat] reports [size], [copyFile] calls [fs.copy] when
    [size] exceeds 10 MiB = 10,485,760 bytes and [fs.copyFile] otherwise. *)
Theorem copyFile_strategy (env : string -> FileIO) (file : string) (size : N)
  (st : WState) (Hstat : io_stat (env file) = Ok size) :
  LARGE_FILE_THRESHOLD = 10485760%N /\
  ((10485760 < size)%N ->
   trace (snd (copyFile env file st)) = trace st ++ [CStat file; CCopy file]) /\
  ((size <= 10485760)%N ->
   trace (snd (copyFile env file st)) = trace st ++ [CStat file; CCopyFile file]).
Proof.
  split; [reflexivity|].
  unfold copyFile, mtry, mbind, stat, fs_copy, fs_copyFile, fs_call, mthrow.
  rewrite Hstat. simpl.
  split; intros Hs.
  - replace (N.ltb LARGE_FILE_THRESHOLD size) with true
      by (symmetry; apply N.ltb_lt; unfold LARGE_FILE_THRESHOLD; lia).
    destruct (of_option (io_copy (env file))); simpl; rewrite <- app_assoc; reflexivity.
  - replace (N.ltb LARGE_FILE_THRESHOLD size) with false
      by (symmetry; apply N.ltb_ge; unfold LARGE_FILE_THRESHOLD; lia).
    destruct (of_option (io_copyFile (env file))); simpl; rewrite <- app_assoc; reflexivity.
Qed.

Lemma copyFile_strategy_witness :
  io_stat (all_ok "a.txt") = Ok 5%N /\
  trace (snd (copyFile all_ok "a.txt" (init_state None))) = [CStat "a.txt"; CCopyFile "a.txt"].
Proof.
  split; [reflexivity|].
  destruct (copyFile_strategy all_ok "a.txt" 5%N (init_state None) eq_refl) as [_ [_ H]].
  apply H. lia.
Defined.

(** ** The coordinator *)

Lemma fold_on_message ms : forall c,
  fst (fold_left on_message ms c) + snd (fold_left on_message ms c)
  = fst c + snd c + count_outcomes ms.
Proof.
  induction ms as [|m ms IH]; intros c; simpl; [lia|].
  rewrite IH. destruct m; simpl; lia.
Qed.

Lemma count_outcomes_app ms1 ms2 :
  count_outcomes (ms1 ++ ms2) = count_outcomes ms1 + count_outcomes ms2.
Proof. induction ms1 as [|m ms IH]; simpl; [reflexivity|]. destruct m; simpl; lia. Qed.

Lemma count_outcomes_events env chunk evs :
  Forall2 (event_for env) chunk evs -> count_outcomes evs = List.length chunk.
Proof.
  induction 1 as [|f ev fs evs Hev _ IH]; simpl; [reflexivity|].
  destruct ev; simpl in Hev |- *; try contradiction; lia.
Qed.

Lemma workers_from_cons env chans k chunk chunks :
  workers_from env chans k (chunk :: chunks)
  = worker_main env chunk (init_state (chans k)) :: workers_from env chans (S k) chunks.
Proof. reflexivity. Qed.

Lemma worker_code env chunk st :
  fst (worker_main env chunk st) = 0 \/ fst (worker_main env chunk st) = 1.
Proof. destruct (worker_main_spec env chunk st) as [[H _]|[H _]]; auto. Qed.

(** When no worker failed, the workers posted one outcome event per file
    of all chunks together. *)
Lemma workers_count env chans chunks : forall k,
  first_failure (map fst (workers_from env chans k chunks)) = None ->
  count_outcomes (List.concat (map (fun r => posted (snd r)) (workers_from env chans k chunks)))
  = List.length (List.concat chunks).
Proof.
  induction chunks as [|chunk chunks IH]; intros k Hf; [reflexivity|].
  rewrite workers_from_cons in Hf |- *. simpl in Hf |- *.
  destruct (worker_main_spec env chunk (init_state (chans k)))
    as [[H0 [_ [evs [Hp Hevs]]]] | [H1 _]].
  - rewrite H0 in Hf. rewrite count_outcomes_app, Hp, length_app. simpl.
    rewrite count_outcomes_app, (count_outcomes_events env chunk evs Hevs). simpl.
    rewrite (IH (S k) Hf). lia.
  - rewrite H1 in Hf. discriminate.
Qed.

(** With no channel broken, no worker fails. *)
Lemma workers_unbroken env chans chunks :
  (forall i, chans i = None) -> forall k,
  first_failure (map fst (workers_from env chans k chunks)) = None.
Proof.
  intros Hch. induction chunks as [|chunk chunks IH]; intros k; [reflexivity|].
  rewrite workers_from_cons. simpl.
  destruct (worker_main_spec env chunk (init_state (chans k)))
    as [[H0 _] | [_ [c [Hc _]]]].
  - rewrite H0. apply IH.
  - simpl in Hc. rewrite Hch in Hc. discriminate.
Qed.

Lemma plan_spec root numCPUs total chunks :
  plan root numCPUs = Ok (total, chunks) ->
  exists files, collectFiles [] root [] = Ok files /\
                total = List.length files /\
                chunks = make_chunks (map rel_string files) numCPUs.
Proof.
  unfold plan. rewrite (countFiles_as_collect [] root).
  destruct (collectFiles [] root []) as [files|e]; simpl; [|discriminate].
  intros H. inversion H. exists files. auto.
Qed.

(** C1: after a run that completes (every worker exited with code 0),
    the copied and skipped counters add up to [totalFiles]. *)
Theorem main_completeness (root : dirents) (numCPUs : nat) (env : string -> FileIO)
  (chans : nat -> option nat) (s : Summary)
  (Hn : 0 < numCPUs) (Hrun : main root numCPUs env chans = Completed s) :
  copiedFiles s + skippedFiles s = totalFiles s.
Proof.
  unfold main in Hrun.
  destruct (plan root numCPUs) as [[total chunks]|e] eqn:Hplan; [|discriminate].
  destruct (first_failure (map fst (run_workers env chans chunks))) eqn:Hf;
    [discriminate|].
  inversion Hrun; subst; simpl. clear Hrun.
  rewrite fold_on_message. simpl.
  apply (workers_count env chans chunks 0) in Hf.
  unfold run_workers in Hf |- *. rewrite Hf.
  destruct (plan_spec root numCPUs total chunks Hplan) as [files [_ [-> ->]]].
  rewrite concat_make_chunks by exact Hn. apply length_map.
Qed.

Lemma main_completeness_witness :
  0 < 2 /\ main scenario_tree 2 all_ok no_break
           = Completed {| totalFiles := 2; copiedFiles := 2; skippedFiles := 0 |} /\
  2 + 0 = 2.
Proof.
  split; [lia|]. split; [vm_compute; reflexivity|].
  apply (main_completeness scenario_tree 2 all_ok no_break
           {| totalFiles := 2; copiedFiles := 2; skippedFiles := 0 |});
    [lia | vm_compute; reflexivity].
Defined.

Lemma make_chunks_nil {A} (n : nat) : make_chunks (@nil A) n = repeat [] n.
Proof.
  unfold make_chunks. rewrite <- (length_seq n 0) at 2.
  generalize (ceil_div (List.length (@nil A)) n) (seq 0 n). intros c l.
  induction l as [|i l IH]; simpl; [reflexivity|].
  rewrite IH. f_equal. unfold slice. rewrite skipn_nil, firstn_nil. reflexivity.
Qed.

Lemma length_concat_repeat_nil {A} (n : nat) :
  List.length (List.concat (repeat (@nil A) n)) = 0.
Proof. induction n as [|n IH]; simpl; auto. Qed.

(** C3, refuted: on an empty source directory with 4 CPUs the partitioner
    still yields 4 (empty) chunks, and [main] spawns a worker for each. *)
Lemma empty_tree_chunks_counterexample : ~ empty_gives_no_chunks.
Proof.
  unfold empty_gives_no_chunks. intros H.
  destruct (H (Listing []) 4 ltac:(lia) eq_refl) as [t Ht].
  vm_compute in Ht. discriminate.
Qed.

(** C3, as the code behaves: with an empty work set, [totalFiles] is 0,
    the partitioner yields [numCPUs] empty chunks (one worker is spawned
    for each), and when no channel breaks the run completes with all
    counts zero. *)
Theorem main_empty_tree (root : dirents) (numCPUs : nat) (env : string -> FileIO)
  (chans : nat -> option nat)
  (Hempty : collectFiles [] root [] = Ok [])
  (Hch : forall i, chans i = None) :
  plan root numCPUs = Ok (0, repeat [] numCPUs) /\
  main root numCPUs env chans
  = Completed {| totalFiles := 0; copiedFiles := 0; skippedFiles := 0 |}.
Proof.
  assert (Hplan : plan root numCPUs = Ok (0, repeat [] numCPUs)).
  { unfold plan. rewrite countFiles_as_collect, Hempty. simpl.
    rewrite make_chunks_nil. reflexivity. }
  split; [exact Hplan|].
  unfold main. rewrite Hplan.
  pose proof (workers_unbroken env chans (repeat [] numCPUs) Hch 0) as Hf.
  unfold run_workers. rewrite Hf.
  pose proof (fold_on_message
    (List.concat (map (fun r => posted (snd r)) (workers_from env chans 0 (repeat [] numCPUs))))
    (0, 0)) as Hsum.
  rewrite (workers_count env chans _ 0 Hf), length_concat_repeat_nil in Hsum.
  destruct (fold_left on_message _ (0, 0)) as [a b]. simpl in Hsum.
  replace a with 0 by lia. replace b with 0 by lia. reflexivity.
Qed.

Lemma main_empty_tree_witness :
  collectFiles [] (Listing []) [] = Ok [] /\ (forall i, no_break i = None) /\
  plan (Listing []) 4 = Ok (0, [[]; []; []; []]).
Proof.
  split; [reflexivity|]. split; [reflexivity|].
  apply (main_empty_tree (Listing []) 4 all_ok no_break eq_refl (fun _ => eq_refl)).
Defined.

(** C4, refuted: when worker 0's channel breaks on the spec's scenario
    tree, [main] rejects and no summary is produced. *)
Lemma fatal_worker_counterexample :
  main scenario_tree 2 all_ok first_channel_broken = Aborted (WorkerExit 1) /\
  forall s, main scenario_tree 2 all_ok first_channel_broken <> Completed s.
Proof.
  split; [vm_compute; reflexivity|].
  intros s. vm_compute. discriminate.
Qed.

Lemma workers_fail env chans chunks : forall k i c,
  i < List.length chunks -> chans (k + i) = Some c ->
  c <= List.length (nth i chunks []) ->
  first_failure (map fst (workers_from env chans k chunks)) = Some 1.
Proof.
  induction chunks as [|chunk chunks IH]; intros k i c Hi Hc Hle; simpl in Hi; [lia|].
  rewrite workers_from_cons. simpl.
  destruct (worker_code env chunk (init_state (chans k))) as [H0|H1].
  - rewrite H0. destruct i as [|i].
    + exfalso. rewrite Nat.add_0_r in Hc. simpl in Hle.
      destruct (worker_main_spec env chunk (init_state (chans k)))
        as [[_ [Hr _]] | [H1 _]]; [| congruence].
      simpl in Hr. rewrite Hc in Hr. simpl in Hr. lia.
    + apply (IH (S k) i c); [lia | | exact Hle].
      rewrite <- Hc. f_equal. lia.
  - rewrite H1. reflexivity.
Qed.

(** C4, as the code behaves: if a worker's channel breaks before it has
    posted its last message ([done]), that worker exits with code 1, the
    [Promise.all] join rejects, and [main] aborts: [main().catch] logs the
    error and exits with status 1 without printing the summary. *)
Theorem main_worker_failure (root : dirents) (numCPUs : nat) (env : string -> FileIO)
  (chans : nat -> option nat) (total : nat) (chunks : list (list string))
  (i k : nat)
  (Hplan : plan root numCPUs = Ok (total, chunks))
  (Hi : i < List.length chunks) (Hbreak : chans i = Some k)
  (Hk : k <= List.length (nth i chunks [])) :
  main root numCPUs env chans = Aborted (WorkerExit 1).
Proof.
  unfold main. rewrite Hplan. unfold run_workers.
  rewrite (workers_fail env chans chunks 0 i k Hi Hbreak Hk). reflexivity.
Qed.

Lemma main_worker_failure_witness :
  plan scenario_tree 2 = Ok (2, [["a.txt"]; ["sub/b.txt"]]) /\
  main scenario_tree 2 all_ok first_channel_broken = Aborted (WorkerExit 1).
Proof.
  split; [vm_compute; reflexivity|].
  apply (main_worker_failure scenario_tree 2 all_ok first_channel_broken 2
           [["a.txt"]; ["sub/b.txt"]] 0 0); [vm_compute; reflexivity | simpl; lia
                                          | reflexivity | simpl; lia].
Defined.

(** ** Enumeration errors (C5) *)

Lemma rbind_assoc {A B C} (r : result A) (f : A -> result B) (g : B -> result C) :
  rbind (rbind r f) g = rbind r (fun a => rbind (f a) g).
Proof. destruct r; reflexivity. Qed.

Lemma countFiles_loop_app dir pre : forall rest count,
  countFiles_loop countFiles dir (pre ++ rest) count
  = (c <- countFiles_loop countFiles dir pre count ;;
     countFiles_loop countFiles dir rest c).
Proof.
  induction pre as [|e pre IH]; intros rest count; simpl; [reflexivity|].
  destruct e as [n|n sub]; simpl.
  - destruct (negb (shouldIgnore (dir ++ [n]) false)); apply IH.
  - destruct (negb (shouldIgnore (dir ++ [n]) true)); [|apply IH].
    rewrite rbind_assoc. destruct (countFiles (dir ++ [n]) sub); simpl; [apply IH | reflexivity].
Qed.

Lemma collectFiles_loop_app dir pre : forall rest res,
  collectFiles_loop collectFiles dir (pre ++ rest) res
  = (r <- collectFiles_loop collectFiles dir pre res ;;
     collectFiles_loop collectFiles dir rest r).
Proof.
  induction pre as [|e pre IH]; intros rest res; simpl; [reflexivity|].
  destruct e as [n|n sub]; simpl.
  - destruct (negb (shouldIgnore (dir ++ [n]) false)); apply IH.
  - destruct (negb (shouldIgnore (dir ++ [n]) true)); [|apply IH].
    rewrite rbind_assoc.
    destruct (collectFiles (dir ++ [n]) sub res); simpl; [apply IH | reflexivity].
Qed.

(** C5, refuted: the unreadable directory [locked] is not treated as empty;
    the counting pass rejects and the run fails. *)
Lemma unreadable_dir_counterexample :
  countFiles [] locked_tree = Err (readdir_error ["locked"]) /\
  forall s, main locked_tree 2 all_ok no_break <> Completed s.
Proof.
  split; [reflexivity|].
  intros s. vm_compute. discriminate.
Qed.

(** C5, as the code behaves: [readdir] on a directory that cannot be
    opened rejects; in either walk, counting or collecting, a directory
    whose failing subdirectory (not ignored) is reached after siblings
    walked without error rejects with that same error, so the error
    climbs to the root; an ignored directory is never opened, both walks
    go on as if it were absent; and a rejected counting pass makes
    [main] abort, so [main().catch] logs the error and exits with
    status 1 before any worker starts. *)
Theorem enumeration_error_aborts :
  (forall dir, countFiles dir Unreadable = Err (readdir_error dir) /\
               forall acc, collectFiles dir Unreadable acc = Err (readdir_error dir)) /\
  (forall dir pre name sub post c e,
     countFiles_loop countFiles dir pre 0 = Ok c ->
     shouldIgnore (dir ++ [name]) true = false ->
     countFiles (dir ++ [name]) sub = Err e ->
     countFiles dir (Listing (pre ++ EDir name sub :: post)) = Err e) /\
  (forall dir pre name sub post acc acc' e,
     collectFiles_loop collectFiles dir pre acc = Ok acc' ->
     shouldIgnore (dir ++ [name]) true = false ->
     collectFiles (dir ++ [name]) sub acc' = Err e ->
     collectFiles dir (Listing (pre ++ EDir name sub :: post)) acc = Err e) /\
  (forall dir pre name sub post,
     shouldIgnore (dir ++ [name]) true = true ->
     countFiles dir (Listing (pre ++ EDir name sub :: post))
     = countFiles dir (Listing (pre ++ post)) /\
     forall acc, collectFiles dir (Listing (pre ++ EDir name sub :: post)) acc
                 = collectFiles dir (Listing (pre ++ post)) acc) /\
  (forall root numCPUs env chans e,
     countFiles [] root = Err e ->
     main root numCPUs env chans = Aborted (EnumerationError e)).
Proof.
  split; [intros dir; split; [reflexivity | intros; reflexivity]|].
  split; [|split; [|split]].
  - intros dir pre name sub post c e Hpre Hign Hsub. simpl.
    rewrite countFiles_loop_app, Hpre. simpl. rewrite Hign, Hsub. reflexivity.
  - intros dir pre name sub post acc acc' e Hpre Hign Hsub. simpl.
    rewrite collectFiles_loop_app, Hpre. simpl. rewrite Hign, Hsub. reflexivity.
  - intros dir pre name sub post Hign. simpl. split.
    + rewrite !countFiles_loop_app. simpl. rewrite Hign. reflexivity.
    + intros acc. rewrite !collectFiles_loop_app. simpl. rewrite Hign. reflexivity.
  - intros root numCPUs env chans e He. unfold main, plan. rewrite He. reflexivity.
Qed.

Lemma enumeration_error_aborts_witness :
  countFiles [] (Listing ([EFile "a.txt"] ++ EDir "locked" Unreadable :: []))
  = Err (readdir_error ["locked"]) /\
  collectFiles [] (Listing ([EFile "a.txt"] ++ EDir "locked" Unreadable :: [])) []
  = Err (readdir_error ["locked"]) /\
  countFiles [] (Listing ([EFile "a.txt"] ++ EDir "node_modules" Unreadable :: []))
  = countFiles [] (Listing ([EFile "a.txt"] ++ [])) /\
  main locked_tree 2 all_ok no_break = Aborted (EnumerationError (readdir_error ["locked"])).
Proof.
  destruct enumeration_error_aborts as [Hu [Hcount [Hcollect [Hign Hmain]]]].
  split; [|split; [|split]].
  - apply (Hcount [] [EFile "a.txt"] "locked" Unreadable [] 1); [reflexivity | reflexivity |].
    apply (proj1 (Hu ["locked"])).
  - apply (Hcollect [] [EFile "a.txt"] "locked" Unreadable [] [] [["a.txt"]]);
      [reflexivity | reflexivity |].
    apply (proj2 (Hu ["locked"])).
  - apply (proj1 (Hign [] [EFile "a.txt"] "node_modules" Unreadable [] eq_refl)).
  - apply Hmain. vm_compute. reflexivity.
Defined.

(** ** Ignore names (C8, C10) *)

Lemma includes_In xs x : includes xs x = true <-> In x xs.
Proof.
  unfold includes. rewrite existsb_exists. split.
  - intros [y [Hy Heq]]. apply String.eqb_eq in Heq. subst. exact Hy.
  - intros Hx. exists x. split; [exact Hx | apply String.eqb_refl].
Qed.

Lemma includes_false xs x : includes xs x = false -> ~ In x xs.
Proof. intros H Hx. apply includes_In in Hx. congruence. Qed.

Lemma shouldIgnore_dir_false parts :
  shouldIgnore parts true = false -> forall x, In x parts -> is_ignore_name x = false.
Proof.
  unfold shouldIgnore.
  destruct (includes parts "System Volume Information") eqn:E1; [discriminate|].
  destruct (includes parts ".git") eqn:E2; [discriminate|].
  intros H x Hx. unfold is_ignore_name.
  assert (Hi : includes ignoredPaths x = false).
  { destruct (includes ignoredPaths x) eqn:E; [|reflexivity].
    rewrite <- H. symmetry. apply existsb_exists. exists x. auto. }
  rewrite Hi. simpl. apply String.eqb_neq. intros ->.
  apply (includes_false _ _ E2). exact Hx.
Qed.

Lemma shouldIgnore_file_false parts :
  shouldIgnore parts false = false ->
  forall x, In x parts -> x <> ".git" /\ x <> "System Volume Information".
Proof.
  unfold shouldIgnore.
  destruct (includes parts "System Volume Information") eqn:E1; [discriminate|].
  destruct (includes parts ".git") eqn:E2; [discriminate|].
  intros _ x Hx. split; intros ->.
  - apply (includes_false _ _ E2). exact Hx.
  - apply (includes_false _ _ E1). exact Hx.
Qed.

Lemma collectFiles_clear : forall c dir acc out,
  (forall x, In x dir -> is_ignore_name x = false) ->
  collectFiles dir c acc = Ok out ->
  forall p, In p out -> In p acc \/ clear_path p.
Proof.
  induction c as [|es Hes] using dirents_ind'; intros dir acc out Hdir Hc; simpl in Hc;
    [discriminate|].
  revert acc Hc. induction Hes as [|e es He Hes IH]; intros acc Hc p Hp; simpl in Hc.
  - inversion Hc; subst. left. exact Hp.
  - destruct e as [n|n sub].
    + destruct (shouldIgnore (dir ++ [n]) false) eqn:Eign; simpl in Hc.
      * apply (IH acc Hc p Hp).
      * destruct (IH _ Hc p Hp) as [Hin|Hclear]; [|right; exact Hclear].
        apply in_app_or in Hin as [Hin|[<-|[]]]; [left; exact Hin|].
        right. split.
        -- rewrite removelast_last. exact Hdir.
        -- apply shouldIgnore_file_false. exact Eign.
    + destruct (shouldIgnore (dir ++ [n]) true) eqn:Eign; simpl in Hc.
      * apply (IH acc Hc p Hp).
      * destruct (collectFiles (dir ++ [n]) sub acc) as [res'|err] eqn:Esub;
          simpl in Hc; [|discriminate].
        destruct (IH _ Hc p Hp) as [Hin|Hclear]; [|right; exact Hclear].
        apply (He (dir ++ [n]) acc res'); [| exact Esub | exact Hin].
        apply shouldIgnore_dir_false. exact Eign.
Qed.

(** C8, refuted: the file [sub/node_modules] is collected, since files are
    matched only by prefix of their whole relative path. *)
Lemma ignore_name_file_counterexample :
  collectFiles [] nm_file_tree [] = Ok [["sub"; "node_modules"]] /\
  ~ no_ignore_component.
Proof.
  split; [reflexivity|].
  unfold no_ignore_component. intros H.
  specialize (H nm_file_tree [["sub"; "node_modules"]] ["sub"; "node_modules"]
                "node_modules" eq_refl (or_introl eq_refl) (or_intror (or_introl eq_refl))).
  discriminate.
Qed.

(** C8, as the code behaves: every path of the work set lies under no
    directory whose name is an [ignoredPaths] entry or [.git] (such a
    directory is never descended into), and has no component [.git] or
    [System Volume Information]. *)
Theorem work_set_clear (root : dirents) (files : list (list string))
  (p : list string)
  (Hc : collectFiles [] root [] = Ok files) (Hp : In p files) :
  (forall x, In x (removelast p) -> is_ignore_name x = false) /\
  (forall x, In x p -> x <> ".git" /\ x <> "System Volume Information").
Proof.
  destruct (collectFiles_clear root [] [] files (fun x Hx => match Hx with end) Hc p Hp)
    as [[]|Hclear].
  exact Hclear.
Qed.

Lemma work_set_clear_witness :
  collectFiles [] scenario_tree [] = Ok [["a.txt"]; ["sub"; "b.txt"]] /\
  In ["sub"; "b.txt"] [["a.txt"]; ["sub"; "b.txt"]] /\
  is_ignore_name "sub" = false.
Proof.
  split; [vm_compute; reflexivity|]. split; [simpl; auto|].
  apply (proj1 (work_set_clear scenario_tree [["a.txt"]; ["sub"; "b.txt"]] ["sub"; "b.txt"]
                  ltac:(vm_compute; reflexivity) ltac:(simpl; auto))).
  simpl. auto.
Defined.

(** C10, refuted: [System Volume Information] is an entry of [ignoredPaths]. *)
Lemma svi_listed_counterexample : ~ git_svi_claim.
Proof.
  unfold git_svi_claim. intros [_ [_ H]]. apply H. simpl. tauto.
Qed.

(** C10, as the code behaves: a path, of a file or a directory, with a
    component [.git] or [System Volume Information] is always ignored;
    [.git] is absent from [ignoredPaths], [System Volume Information] is
    listed there as well. *)
Theorem shouldIgnore_git_svi (parts : list string) (isDirectory : bool)
  (H : In ".git" parts \/ In "System Volume Information" parts) :
  shouldIgnore parts isDirectory = true /\
  ~ In ".git" ignoredPaths /\ In "System Volume Information" ignoredPaths.
Proof.
  split; [|split; [simpl; intuition discriminate | simpl; tauto]].
  unfold shouldIgnore.
  destruct H as [H|H]; apply includes_In in H; rewrite H;
    [destruct (includes parts "System Volume Information") |]; reflexivity.
Qed.

Lemma shouldIgnore_git_svi_witness :
  shouldIgnore ["src"; ".git"; "HEAD"] false = true /\
  shouldIgnore ["photos"; "System Volume Information"] true = true.
Proof.
  split.
  - apply (shouldIgnore_git_svi ["src"; ".git"; "HEAD"] false). simpl. tauto.
  - apply (shouldIgnore_git_svi ["photos"; "System Volume Information"] true). simpl. tauto.
Defined.

(** * Further properties of the code *)

(** ** Command-line arguments *)

Lemma list_ascii_of_string_app (a b : string) :
  list_ascii_of_string (a ++ b) = list_ascii_of_string a ++ list_ascii_of_string b.
Proof. induction a as [|x a IH]; simpl; [reflexivity | rewrite IH; reflexivity]. Qed.

Lemma split_on_no_sep (c : ascii) (s : string) :
  no_char c s = true -> split_on c s = [s].
Proof.
  unfold no_char. induction s as [|a s IH]; simpl; [reflexivity|].
  intros H. apply andb_prop in H as [Ha Hs].
  apply negb_true_iff in Ha. rewrite Ha, (IH Hs). reflexivity.
Qed.

Lemma split_on_app_sep (c : ascii) (a s : string) :
  no_char c a = true -> split_on c (a ++ String c s) = a :: split_on c s.
Proof.
  unfold no_char. induction a as [|x a IH]; simpl; intros H.
  - rewrite Ascii.eqb_refl. reflexivity.
  - apply andb_prop in H as [Hx Ha].
    apply negb_true_iff in Hx. rewrite Hx, (IH Ha). reflexivity.
Qed.

Lemma forallb_rev {A} (f : A -> bool) (l : list A) :
  forallb f (rev l) = forallb f l.
Proof.
  induction l as [|a l IH]; simpl; [reflexivity|].
  rewrite forallb_app, IH. simpl. rewrite andb_true_r, andb_comm. reflexivity.
Qed.

Lemma unwrap_other (q : ascii) (v : string) :
  match list_ascii_of_string v with
  | a :: _ => Ascii.eqb a q = false
  | [] => True
  end ->
  unwrap q v = v.
Proof.
  unfold unwrap. destruct (list_ascii_of_string v) as [|a rest]; [reflexivity|].
  intros Ha. destruct (rev rest); [reflexivity|]. rewrite Ha. reflexivity.
Qed.

Lemma unwrap_quoted (q : ascii) (v : string) :
  forallb (fun x => negb (line_terminator x)) (list_ascii_of_string v) = true ->
  unwrap q (quoted q v) = v.
Proof.
  intros Hv. unfold unwrap, quoted. simpl.
  rewrite list_ascii_of_string_app. simpl. rewrite rev_app_distr. simpl.
  rewrite Ascii.eqb_refl, forallb_rev, Hv. simpl.
  rewrite rev_involutive. apply string_of_list_ascii_of_string.
Qed.

Lemma plain_first (q : ascii) (v : string) :
  forallb plain_char (list_ascii_of_string v) = true ->
  q = double_quote \/ q = single_quote ->
  match list_ascii_of_string v with
  | a :: _ => Ascii.eqb a q = false
  | [] => True
  end.
Proof.
  destruct (list_ascii_of_string v) as [|a rest]; [trivial|].
  simpl. intros H Hq. apply andb_prop in H as [Ha _].
  unfold plain_char in Ha. apply andb_prop in Ha as [Ha _].
  apply andb_prop in Ha as [Ha Hsq]. apply andb_prop in Ha as [_ Hdq].
  apply negb_true_iff in Hdq, Hsq.
  destruct Hq as [-> | ->]; assumption.
Qed.

Lemma plain_no_eq (v : string) :
  forallb plain_char (list_ascii_of_string v) = true -> no_char "="%char v = true.
Proof.
  unfold no_char. intros H. apply forallb_forall. intros a Ha.
  rewrite forallb_forall in H. specialize (H a Ha).
  unfold plain_char in H. repeat (apply andb_prop in H as [H ?]). exact H.
Qed.

Lemma plain_no_terminator (v : string) :
  forallb plain_char (list_ascii_of_string v) = true ->
  forallb (fun x => negb (line_terminator x)) (list_ascii_of_string v) = true.
Proof.
  intros H. apply forallb_forall. intros a Ha.
  rewrite forallb_forall in H. specialize (H a Ha).
  unfold plain_char in H. apply andb_prop in H as [_ H]. exact H.
Qed.

Lemma clean_value_plain (v : string) :
  forallb plain_char (list_ascii_of_string v) = true -> clean_value v = v.
Proof.
  intros H. unfold clean_value.
  rewrite (unwrap_other double_quote v (plain_first _ v H (or_introl eq_refl))).
  apply unwrap_other, plain_first; [exact H | right; reflexivity].
Qed.

Lemma parse_args_snoc (argv : list string) (arg : string) :
  parse_args (argv ++ [arg]) = parse_arg (parse_args argv) arg.
Proof. unfold parse_args. rewrite fold_left_app. reflexivity. Qed.

Lemma obj_get_set (acc : list (string * string)) (k v : string) :
  k <> "__proto__" -> obj_get (obj_set acc k v) k = Some v.
Proof.
  intros Hk. unfold obj_set. apply String.eqb_neq in Hk. rewrite Hk.
  unfold obj_get. simpl. rewrite String.eqb_refl. reflexivity.
Qed.

(** An argument [--k=w] whose key [k] has no [=]: [k] gets [clean_value]
    of the first piece of [w] when that piece is not empty. *)
Lemma parse_arg_dashed (acc : list (string * string)) (k w w1 : string)
  (ws : list string) :
  no_char "="%char k = true -> k <> "__proto__" ->
  split_on "="%char w = w1 :: ws -> w1 <> EmptyString ->
  obj_get (parse_arg acc ("--" ++ k ++ "=" ++ w)%string) k = Some (clean_value w1).
Proof.
  intros Hk Hproto Hw Hw1. unfold parse_arg.
  replace ("--" ++ k ++ "=" ++ w)%string with (("--" ++ k) ++ String "="%char w)%string
    by reflexivity.
  rewrite split_on_app_sep by (unfold no_char in *; simpl; exact Hk).
  rewrite Hw. apply String.eqb_neq in Hw1. rewrite Hw1. simpl.
  apply obj_get_set. exact Hproto.
Qed.

Lemma no_char_quoted (c q : ascii) (v : string) :
  Ascii.eqb q c = false -> no_char c v = true -> no_char c (quoted q v) = true.
Proof.
  unfold no_char, quoted. intros Hq Hv. simpl.
  rewrite list_ascii_of_string_app, forallb_app, Hv. simpl. rewrite Hq. reflexivity.
Qed.

Lemma path_normalize_nonempty (normalizeString : string -> bool -> string) (p : string) :
  path_normalize normalizeString p <> EmptyString.
Proof.
  unfold path_normalize.
  destruct (list_ascii_of_string p) as [|c0 r]; [discriminate|].
  destruct (normalizeString p (negb (Ascii.eqb c0 "/"%char))) as [|x p'];
    simpl; destruct (Ascii.eqb c0 "/"%char);
    destruct (rev r ++ [c0]) as [|c l]; try destruct (Ascii.eqb c "/"%char);
    discriminate.
Qed.

(** A later [--k=...] argument sets [k] whatever the earlier arguments
    were: the value unquoted when it was wrapped in one pair of double or
    single quotes, and as given otherwise (for a value without [=],
    quotes and line terminators). *)
Theorem parse_args_last_value (argv : list string) (k v w : string)
  (Hk : no_char "="%char k = true) (Hproto : k <> "__proto__")
  (Hv : v <> EmptyString) (Hplain : forallb plain_char (list_ascii_of_string v) = true)
  (Hw : w = v \/ w = quoted double_quote v \/ w = quoted single_quote v) :
  obj_get (parse_args (argv ++ [("--" ++ k ++ "=" ++ w)%string])) k = Some v.
Proof.
  rewrite parse_args_snoc.
  assert (Hnoeq : no_char "="%char w = true).
  { destruct Hw as [-> | [-> | ->]];
      [ | apply no_char_quoted; [reflexivity|] | apply no_char_quoted; [reflexivity|] ];
      apply plain_no_eq; exact Hplain. }
  rewrite (parse_arg_dashed (parse_args argv) k w w [] Hk Hproto (split_on_no_sep _ _ Hnoeq)).
  - f_equal. destruct Hw as [-> | [-> | ->]].
    + apply clean_value_plain. exact Hplain.
    + unfold clean_value. rewrite unwrap_quoted by (apply plain_no_terminator; exact Hplain).
      apply unwrap_other, plain_first; [exact Hplain | right; reflexivity].
    + unfold clean_value. rewrite (unwrap_other double_quote) by reflexivity.
      apply unwrap_quoted, plain_no_terminator. exact Hplain.
  - destruct Hw as [-> | [-> | ->]]; [exact Hv | discriminate | discriminate].
Qed.

Lemma parse_args_last_value_witness :
  no_char "="%char "source" = true /\ "source" <> "__proto__" /\
  "/data/in" <> EmptyString /\
  forallb plain_char (list_ascii_of_string "/data/in") = true /\
  obj_get (parse_args ["--source=/old"; ("--source=" ++ quoted double_quote "/data/in")%string])
    "source" = Some "/data/in".
Proof.
  split; [reflexivity|]. split; [discriminate|]. split; [discriminate|].
  split; [reflexivity|].
  apply (parse_args_last_value ["--source=/old"] "source" "/data/in"
           (quoted double_quote "/data/in")); [reflexivity | discriminate | discriminate
                                              | reflexivity | right; left; reflexivity].
Defined.

(** An argument without [=], with nothing after its first [=], or with
    nothing before it, is ignored: the parsed arguments stay as they
    were. *)
Theorem parse_args_ignored (argv : list string) (arg : string)
  (H : no_char "="%char arg = true \/
       (exists key, no_char "="%char key = true /\ arg = (key ++ "=")%string) \/
       (exists rest, arg = ("=" ++ rest)%string)) :
  parse_args (argv ++ [arg]) = parse_args argv.
Proof.
  rewrite parse_args_snoc. unfold parse_arg.
  destruct H as [Hno | [[key [Hkey ->]] | [rest ->]]].
  - rewrite (split_on_no_sep _ _ Hno). reflexivity.
  - replace (key ++ "=")%string with (key ++ String "="%char EmptyString)%string
      by reflexivity.
    rewrite (split_on_app_sep _ _ _ Hkey). simpl.
    rewrite andb_false_r. reflexivity.
  - simpl. destruct (split_on "="%char rest); reflexivity.
Qed.

Lemma parse_args_ignored_witness :
  no_char "="%char "--verbose" = true /\
  parse_args ["--source=/a"; "--verbose"] = parse_args ["--source=/a"] /\
  parse_args ["--source=/a"; "--destination="] = parse_args ["--source=/a"].
Proof.
  split; [reflexivity|]. split.
  - apply (parse_args_ignored ["--source=/a"] "--verbose"). left. reflexivity.
  - apply (parse_args_ignored ["--source=/a"] "--destination="). right. left.
    exists "--destination". split; reflexivity.
Defined.

(** A value is cut at its first [=]: [--k=v=rest] sets [k] to the cleaned
    [v], and what follows the second [=] is lost. *)
Theorem parse_args_value_cut (argv : list string) (k v rest : string)
  (Hk : no_char "="%char k = true) (Hproto : k <> "__proto__")
  (Hv : v <> EmptyString) (Hveq : no_char "="%char v = true) :
  obj_get (parse_args (argv ++ [("--" ++ k ++ "=" ++ v ++ "=" ++ rest)%string])) k
  = Some (clean_value v).
Proof.
  rewrite parse_args_snoc.
  apply (parse_arg_dashed _ k _ v (split_on "="%char rest) Hk Hproto); [|exact Hv].
  apply split_on_app_sep. exact Hveq.
Qed.

Lemma parse_args_value_cut_witness :
  no_char "="%char "source" = true /\ "source" <> "__proto__" /\
  String double_quote "a" <> EmptyString /\ no_char "="%char (String double_quote "a") = true /\
  obj_get (parse_args [("--source=" ++ quoted double_quote "a=b")%string]) "source"
  = Some (String double_quote "a").
Proof.
  split; [reflexivity|]. split; [discriminate|]. split; [discriminate|].
  split; [reflexivity|].
  exact (parse_args_value_cut [] "source" (String double_quote "a")
           (String "b"%char (String double_quote EmptyString))
           eq_refl ltac:(discriminate) ltac:(discriminate) eq_refl).
Defined.

(** The check that both directories were given never fails:
    [path.normalize] returns a non-empty string, ["."] for a missing or
    empty argument, so the run starts from the current directory. *)
Theorem startup_defaults (normalizeString : string -> bool -> string)
  (argv : list string) :
  exists src dst,
    startup normalizeString argv = Start src dst /\
    (arg_value argv "source" = EmptyString -> src = ".") /\
    (arg_value argv "destination" = EmptyString -> dst = ".").
Proof.
  unfold startup.
  rewrite (proj2 (String.eqb_neq _ _) (path_normalize_nonempty _ _)).
  rewrite (proj2 (String.eqb_neq _ _) (path_normalize_nonempty _ _)).
  eexists. eexists. split; [reflexivity|].
  split; intros ->; reflexivity.
Qed.

(** ** The worker *)

(** For one file, with its channel open, the worker calls
    [fs.ensureDir] first, [fs.stat] only once that succeeded, and the
    copy routine chosen by the size only once [stat] succeeded; it posts
    one event whose reason tells the failing step apart: a failure of
    [stat] or of the copy carries the ["Failed to copy file: "] prefix,
    a failure of [ensureDir] does not. *)
Theorem copyBatch_step_calls (env : string -> FileIO) (file : string) (st : WState)
  (Hch : channel st <> Some 0) :
  let st' := snd (copyBatch_step env file st) in
  fst (copyBatch_step env file st) = Ok tt /\
  match io_ensureDir (env file) with
  | Some e =>
      trace st' = trace st ++ [CEnsureDir file] /\
      posted st' = posted st ++ [MSkipped file ("Error copying " ++ file ++ ": " ++ e)]
  | None =>
      match io_stat (env file) with
      | Err e =>
          trace st' = trace st ++ [CEnsureDir file; CStat file] /\
          posted st' = posted st ++
            [MSkipped file ("Error copying " ++ file ++ ": Failed to copy file: " ++ e)]
      | Ok size =>
          let large := N.ltb LARGE_FILE_THRESHOLD size in
          trace st' = trace st ++
            [CEnsureDir file; CStat file; if large then CCopy file else CCopyFile file] /\
          posted st' = posted st ++
            [match (if large then io_copy (env file) else io_copyFile (env file)) with
             | None => MCopied file
             | Some e => MSkipped file
                           ("Error copying " ++ file ++ ": Failed to copy file: " ++ e)
             end]
      end
  end.
Proof.
  unfold copyBatch_step, copyFile, mtry, mbind, mthrow, ensureDir, stat, fs_copy,
    fs_copyFile, fs_call, of_option, postMessage.
  destruct (env file) as [ed sz cp cpf]. simpl.
  destruct st as [ps ch tr]. simpl in Hch |- *.
  destruct ed as [e|]; [|destruct sz as [size|e];
                         [destruct (N.ltb LARGE_FILE_THRESHOLD size);
                          [destruct cp as [e|] | destruct cpf as [e|]] | ]];
    destruct ch as [[|k]|]; try congruence; simpl;
    rewrite <- ?app_assoc; simpl; repeat split.
Qed.

Lemma copyBatch_step_calls_witness :
  channel (init_state None) <> Some 0 /\
  trace (snd (copyBatch_step b_unreadable "b.txt" (init_state None)))
  = [CEnsureDir "b.txt"; CStat "b.txt"].
Proof.
  split; [discriminate|].
  exact (proj1 (proj2 (copyBatch_step_calls b_unreadable "b.txt" (init_state None)
                         ltac:(discriminate)))).
Defined.

Lemma copyBatch_app (env : string -> FileIO) (l1 l2 : list string) : forall st,
  copyBatch env (l1 ++ l2) st
  = (let* _ := copyBatch env l1 in copyBatch env l2) st.
Proof.
  induction l1 as [|f l1 IH]; intros st; simpl; [reflexivity|].
  unfold mbind at 1 2 3.
  destruct (copyBatch_step env f st) as [[u|e] s']; [apply IH | reflexivity].
Qed.

Lemma run_batches_concat (env : string -> FileIO) (bs : list (list string)) : forall st,
  run_batches env bs st = copyBatch env (List.concat bs) st.
Proof.
  induction bs as [|b bs IH]; intros st; simpl; [reflexivity|].
  rewrite copyBatch_app. unfold mbind.
  destruct (copyBatch env b st) as [[u|e] s']; [apply IH | reflexivity].
Qed.

(** Splitting a chunk into batches of [BATCH_SIZE] is not observable: the
    worker behaves as one [copyBatch] over its whole chunk followed by
    the [done] message, state for state. *)
Theorem worker_body_unbatched (env : string -> FileIO) (chunk : list string)
  (st : WState) :
  worker_body env chunk st = (let* _ := copyBatch env chunk in postMessage MDone) st.
Proof.
  unfold worker_body, mbind.
  rewrite run_batches_concat, concat_batches. reflexivity.
Qed.

(** The chunk is cut into [ceil(length / 100)] batches, each holding
    between 1 and [BATCH_SIZE] = 100 files, which together are the chunk
    in order. *)
Theorem batches_sizes (chunk : list string) :
  List.length (batches chunk) = ceil_div (List.length chunk) BATCH_SIZE /\
  Forall (fun b => 1 <= List.length b <= BATCH_SIZE) (batches chunk) /\
  List.concat (batches chunk) = chunk.
Proof.
  split; [unfold batches; rewrite length_map, length_seq; reflexivity|].
  split; [|apply concat_batches].
  apply Forall_forall. intros b Hb. unfold batches in Hb.
  apply in_map_iff in Hb as [k [<- Hk]]. apply in_seq in Hk.
  rewrite length_slice.
  assert (Hlt : k * BATCH_SIZE < List.length chunk).
  { destruct (Nat.lt_ge_cases (k * BATCH_SIZE) (List.length chunk)) as [H|H]; [exact H|].
    pose proof (ceil_div_least (List.length chunk) BATCH_SIZE k ltac:(unfold BATCH_SIZE; lia)
                  ltac:(lia)). lia. }
  unfold BATCH_SIZE in *. lia.
Qed.

(** ** The counters of main *)

Lemma on_message_comm (c : nat * nat) (m1 m2 : Message) :
  on_message (on_message c m1) m2 = on_message (on_message c m2) m1.
Proof. destruct c, m1, m2; reflexivity. Qed.

(** The counters do not depend on the order in which the messages of the
    workers arrive. *)
Theorem on_message_order_free (ms ms' : list Message) (c : nat * nat)
  (Hperm : Permutation ms ms') :
  fold_left on_message ms c = fold_left on_message ms' c.
Proof.
  revert c. induction Hperm as [|m ms ms' _ IH|m1 m2 ms|ms ms' ms'' _ IH1 _ IH2];
    intros c; simpl.
  - reflexivity.
  - apply IH.
  - rewrite on_message_comm. reflexivity.
  - rewrite IH1. apply IH2.
Qed.

Lemma on_message_order_free_witness :
  Permutation [MCopied "a"; MDone; MSkipped "b" "e"] [MSkipped "b" "e"; MCopied "a"; MDone] /\
  fold_left on_message [MCopied "a"; MDone; MSkipped "b" "e"] (0, 0)
  = fold_left on_message [MSkipped "b" "e"; MCopied "a"; MDone] (0, 0).
Proof.
  assert (Hp : Permutation [MCopied "a"; MDone; MSkipped "b" "e"]
                           [MSkipped "b" "e"; MCopied "a"; MDone]).
  { apply Permutation_sym, (Permutation_cons_append [MCopied "a"; MDone] (MSkipped "b" "e")). }
  split; [exact Hp | apply on_message_order_free; exact Hp].
Defined.

Lemma on_message_grows (ms : list Message) : forall c,
  fst c <= fst (fold_left on_message ms c) /\ snd c <= snd (fold_left on_message ms c).
Proof.
  induction ms as [|m ms IH]; intros c; simpl; [lia|].
  destruct (IH (on_message c m)) as [H1 H2].
  destruct m; simpl in *; lia.
Qed.

(** The copied and skipped counters, and with them the progress bar's
    value [copiedFiles + skippedFiles], never decrease as messages
    arrive. *)
Theorem on_message_monotone (ms ms' : list Message) (c : nat * nat) :
  fst (fold_left on_message ms c) <= fst (fold_left on_message (ms ++ ms') c) /\
  snd (fold_left on_message ms c) <= snd (fold_left on_message (ms ++ ms') c).
Proof. rewrite fold_left_app. apply on_message_grows. Qed.

Lemma count_copied_app env l1 l2 :
  count_copied env (l1 ++ l2) = count_copied env l1 + count_copied env l2.
Proof. unfold count_copied. rewrite filter_app, length_app. reflexivity. Qed.

Lemma count_skipped_app env l1 l2 :
  count_skipped env (l1 ++ l2) = count_skipped env l1 + count_skipped env l2.
Proof. unfold count_skipped. rewrite filter_app, length_app. reflexivity. Qed.

Lemma events_counters env chunk evs :
  Forall2 (event_for env) chunk evs -> forall c,
  fold_left on_message (evs ++ [MDone]) c
  = (fst c + count_copied env chunk, snd c + count_skipped env chunk).
Proof.
  induction 1 as [|f ev fs evs Hev _ IH]; intros c.
  - destruct c. unfold count_copied, count_skipped. simpl. f_equal; lia.
  - simpl. rewrite IH. unfold count_copied, count_skipped. simpl.
    destruct ev as [g|g r| |r]; simpl in Hev; try contradiction.
    + destruct Hev as [-> ->]. simpl. f_equal; lia.
    + destruct Hev as [-> [-> _]]. simpl. f_equal; lia.
Qed.

Lemma workers_counters env chans chunks :
  (forall i, chans i = None) -> forall k c,
  fold_left on_message
    (List.concat (map (fun r => posted (snd r)) (workers_from env chans k chunks))) c
  = (fst c + count_copied env (List.concat chunks),
     snd c + count_skipped env (List.concat chunks)).
Proof.
  intros Hch. induction chunks as [|chunk chunks IH]; intros k c.
  - destruct c. unfold count_copied, count_skipped. simpl. f_equal; lia.
  - rewrite workers_from_cons. simpl. rewrite fold_left_app.
    destruct (worker_main_spec env chunk (init_state (chans k)))
      as [[_ [_ [evs [Hp Hevs]]]] | [_ [j [Hj _]]]].
    + rewrite Hp. simpl. rewrite (events_counters env chunk evs Hevs), IH.
      rewrite count_copied_app, count_skipped_app. simpl. f_equal; lia.
    + simpl in Hj. rewrite Hch in Hj. discriminate.
Qed.

(** With every directory readable and no channel breaking, a run always
    completes, whatever single files fail: [totalFiles] is the size of
    the work set, [copiedFiles] the number of its files whose copy
    succeeds and [skippedFiles] the number of the others. *)
Theorem main_exact_counts (root : dirents) (numCPUs : nat) (env : string -> FileIO)
  (chans : nat -> option nat) (files : list (list string))
  (Hn : 0 < numCPUs) (Hfiles : collectFiles [] root [] = Ok files)
  (Hch : forall i, chans i = None) :
  main root numCPUs env chans
  = Completed {| totalFiles := List.length files;
                 copiedFiles := count_copied env (map rel_string files);
                 skippedFiles := count_skipped env (map rel_string files) |}.
Proof.
  unfold main, plan. rewrite countFiles_as_collect, Hfiles. simpl.
  unfold run_workers. rewrite (workers_unbroken env chans _ Hch 0).
  rewrite (workers_counters env chans _ Hch 0 (0, 0)), concat_make_chunks by exact Hn.
  reflexivity.
Qed.

Lemma main_exact_counts_witness :
  0 < 2 /\ collectFiles [] (Listing [EFile "a.txt"; EFile "b.txt"]) []
           = Ok [["a.txt"]; ["b.txt"]] /\
  (forall i, no_break i = None) /\
  main (Listing [EFile "a.txt"; EFile "b.txt"]) 2 b_unreadable no_break
  = Completed {| totalFiles := 2; copiedFiles := 1; skippedFiles := 1 |}.
Proof.
  split; [lia|]. split; [reflexivity|]. split; [reflexivity|].
  rewrite (main_exact_counts (Listing [EFile "a.txt"; EFile "b.txt"]) 2 b_unreadable
             no_break [["a.txt"]; ["b.txt"]] ltac:(lia) eq_refl (fun _ => eq_refl)).
  vm_compute. reflexivity.
Defined.

(** ** The walks over the source tree *)


(** An ignored directory is never read: both walks go on as if it were
    not there, whatever it holds, even when [readdir] would fail on it. *)
Theorem ignored_dir_unread (dir : list string) (pre post : list entry) (n : string)
  (c : dirents) (Hign : shouldIgnore (dir ++ [n]) true = true) :
  countFiles dir (Listing (pre ++ EDir n c :: post)) = countFiles dir (Listing (pre ++ post)) /\
  forall acc, collectFiles dir (Listing (pre ++ EDir n c :: post)) acc
              = collectFiles dir (Listing (pre ++ post)) acc.
Proof.
  simpl. split.
  - rewrite !countFiles_loop_app. simpl. rewrite Hign. reflexivity.
  - intros acc. rewrite !collectFiles_loop_app. simpl. rewrite Hign. reflexivity.
Qed.

Lemma ignored_dir_unread_witness :
  shouldIgnore ([] ++ ["node_modules"]) true = true /\
  countFiles [] (Listing ([EFile "a.txt"] ++ EDir "node_modules" Unreadable :: [])) = Ok 1.
Proof.
  split; [reflexivity|].
  rewrite (proj1 (ignored_dir_unread [] [EFile "a.txt"] [] "node_modules" Unreadable
                    eq_refl)).
  reflexivity.
Defined.




Lemma distinct_names_NoDup (l : list string) : distinct_names l = true -> NoDup l.
Proof.
  induction l as [|n l IH]; simpl; intros H; [constructor|].
  apply andb_prop in H as [Hn Hl]. apply negb_true_iff, includes_false in Hn.
  constructor; [exact Hn | apply IH; exact Hl].
Qed.

Lemma collectFiles_distinct : forall c dir acc out,
  well_named c = true -> collectFiles dir c acc = Ok out ->
  exists l, out = acc ++ l /\ NoDup l /\
    forall p, In p l -> exists n r, p = dir ++ n :: r /\ In n (listing_names c) /\
                                    Forall (fun x => name_ok x = true) (n :: r).
Proof.
  induction c as [|es Hes] using dirents_ind'; intros dir acc out Hwn Hc; simpl in Hc;
    [discriminate|].
  simpl in Hwn. apply andb_prop in Hwn as [Hwn Hloop].
  apply andb_prop in Hwn as [Hdist Hnames]. simpl.
  revert acc out Hc. induction Hes as [|e es He Hes IH]; intros acc out Hc.
  - simpl in Hc. inversion Hc. exists []. rewrite app_nil_r.
    split; [reflexivity|]. split; [constructor | intros p []].
  - simpl in Hdist, Hnames. apply andb_prop in Hdist as [Hnot Hdist].
    apply andb_prop in Hnames as [Hn Hnames].
    apply negb_true_iff, includes_false in Hnot.
    specialize (IH Hdist Hnames).
    assert (Hweak : forall acc' out', collectFiles_loop collectFiles dir es acc' = Ok out' ->
              well_named_loop well_named es = true ->
              exists l, out' = acc' ++ l /\ NoDup l /\
                forall p, In p l -> exists n r, p = dir ++ n :: r /\
                  In n (map entry_name (e :: es)) /\ Forall (fun x => name_ok x = true) (n :: r)).
    { intros acc' out' Hc' Hl'. destruct (IH Hl' acc' out' Hc') as [l [Hout [Hnd Hp]]].
      exists l. split; [exact Hout|]. split; [exact Hnd|].
      intros p Hin. destruct (Hp p Hin) as [n0 [r [Hpe [Hn0 Hf]]]].
      exists n0, r. split; [exact Hpe|]. split; [right; exact Hn0 | exact Hf]. }
    destruct e as [n|n sub]; simpl in Hc, Hnot, Hn, Hloop.
    + destruct (shouldIgnore (dir ++ [n]) false); simpl in Hc; [apply Hweak; assumption|].
      destruct (IH Hloop _ _ Hc) as [l [Hout [Hnd Hp]]].
      exists ((dir ++ [n]) :: l). split; [rewrite Hout, <- app_assoc; reflexivity|]. split.
      * constructor; [|exact Hnd]. intros Hin.
        destruct (Hp _ Hin) as [n0 [r [Hpe [Hn0 _]]]].
        apply app_inv_head in Hpe. inversion Hpe; subst. contradiction.
      * intros p [<- | Hin].
        -- exists n, []. split; [reflexivity|]. split; [left; reflexivity|].
           constructor; [exact Hn | constructor].
        -- destruct (Hp p Hin) as [n0 [r [Hpe [Hn0 Hf]]]].
           exists n0, r. split; [exact Hpe|]. split; [right; exact Hn0 | exact Hf].
    + apply andb_prop in Hloop as [Hsub Hloop].
      destruct (shouldIgnore (dir ++ [n]) true); simpl in Hc; [apply Hweak; assumption|].
      destruct (collectFiles (dir ++ [n]) sub acc) as [acc'|err] eqn:Esub;
        simpl in Hc; [|discriminate].
      destruct (He (dir ++ [n]) acc acc' Hsub Esub) as [l1 [-> [Hnd1 Hp1]]].
      destruct (IH Hloop _ _ Hc) as [l2 [-> [Hnd2 Hp2]]].
      exists (l1 ++ l2). split; [rewrite <- app_assoc; reflexivity|]. split.
      * apply NoDup_app; [exact Hnd1 | exact Hnd2 |].
        intros p Hin1 Hin2.
        destruct (Hp1 p Hin1) as [n1 [r1 [E1 _]]].
        destruct (Hp2 p Hin2) as [n2 [r2 [E2 [Hn2 _]]]].
        rewrite E1, <- app_assoc in E2. apply app_inv_head in E2. simpl in E2.
        inversion E2; subst. contradiction.
      * intros p Hin. apply in_app_or in Hin as [Hin|Hin].
        -- destruct (Hp1 p Hin) as [n1 [r1 [E1 [_ Hf]]]].
           exists n, (n1 :: r1). split; [rewrite E1, <- app_assoc; reflexivity|].
           split; [left; reflexivity|]. constructor; [exact Hn | exact Hf].
        -- destruct (Hp2 p Hin) as [n0 [r [Hpe [Hn0 Hf]]]].
           exists n0, r. split; [exact Hpe|]. split; [right; exact Hn0 | exact Hf].
Qed.

(** Joining the components with the separator and splitting the result
    on it ([relativePath.split(path.sep)] in [shouldIgnore]) gives the
    components back. *)
Lemma split_rel_string (r : list string) : forall n,
  Forall (fun x => name_ok x = true) (n :: r) ->
  split_on "/"%char (rel_string (n :: r)) = n :: r.
Proof.
  induction r as [|m r IH]; intros n H; inversion H as [|? ? Hn Hr]; subst.
  - unfold rel_string. simpl. apply split_on_no_sep. exact Hn.
  - unfold rel_string in *.
    change (String.concat sep (n :: m :: r))
      with (n ++ String "/"%char (String.concat sep (m :: r)))%string.
    rewrite split_on_app_sep by exact Hn. f_equal. apply IH. exact Hr.
Qed.

Lemma NoDup_map_on {A B} (f : A -> B) (l : list A) :
  (forall x y, In x l -> In y l -> f x = f y -> x = y) -> NoDup l -> NoDup (map f l).
Proof.
  intros Hinj Hnd. induction Hnd as [|a l Ha Hnd IH]; simpl; constructor.
  - intros Hin. apply in_map_iff in Hin as [b [Hb Hbin]].
    assert (b = a) by (apply Hinj; [right; exact Hbin | left; reflexivity | exact Hb]).
    subst. contradiction.
  - apply IH. intros x y Hx Hy. apply Hinj; right; assumption.
Qed.

(** On a tree whose directories list distinct names without the
    separator, as a file system has it, the work set holds every path at
    most once, as component lists and as the strings sent to the
    workers: no file is copied twice. *)
Theorem work_set_distinct (root : dirents) (files : list (list string))
  (Hwn : well_named root = true) (Hc : collectFiles [] root [] = Ok files) :
  NoDup files /\ NoDup (map rel_string files).
Proof.
  destruct (collectFiles_distinct root [] [] files Hwn Hc) as [l [-> [Hnd Hp]]].
  simpl. split; [exact Hnd|].
  apply NoDup_map_on; [|exact Hnd].
  intros x y Hx Hy Hxy.
  destruct (Hp x Hx) as [n1 [r1 [-> [_ Hf1]]]].
  destruct (Hp y Hy) as [n2 [r2 [-> [_ Hf2]]]].
  simpl in Hxy |- *.
  rewrite <- (split_rel_string r1 n1 Hf1), <- (split_rel_string r2 n2 Hf2), Hxy.
  reflexivity.
Qed.

Lemma work_set_distinct_witness :
  well_named scenario_tree = true /\
  collectFiles [] scenario_tree [] = Ok [["a.txt"]; ["sub"; "b.txt"]] /\
  NoDup (map rel_string [["a.txt"]; ["sub"; "b.txt"]]).
Proof.
  split; [vm_compute; reflexivity|]. split; [reflexivity|].
  apply (proj2 (work_set_distinct scenario_tree [["a.txt"]; ["sub"; "b.txt"]]
                  ltac:(vm_compute; reflexivity) eq_refl)).
Defined.

(** ** Partitioning *)

Lemma ceil_div_one (len n : nat) : 0 < len -> len <= n -> ceil_div len n = 1.
Proof.
  intros H1 H2. unfold ceil_div. symmetry.
  apply (Nat.div_unique _ _ _ (len - 1)); lia.
Qed.

Lemma unit_slices {A} (l pre : list A) :
  map (fun i => slice (pre ++ l) (i * 1) ((i + 1) * 1)) (seq (List.length pre) (List.length l))
  = map (fun x => [x]) l.
Proof.
  revert pre. induction l as [|a l IH]; intros pre; simpl; [reflexivity|].
  f_equal.
  - unfold slice. replace ((List.length pre + 1) * 1 - List.length pre * 1) with 1 by lia.
    rewrite Nat.mul_1_r, skipn_app, skipn_all, Nat.sub_diag. reflexivity.
  - specialize (IH (pre ++ [a])). rewrite <- app_assoc, length_app in IH.
    simpl in IH. rewrite Nat.add_1_r in IH. exact IH.
Qed.

Lemma empty_slices {A} (l : list A) (m : nat) : forall k,
  List.length l <= k ->
  map (fun i => slice l (i * 1) ((i + 1) * 1)) (seq k m) = repeat [] m.
Proof.
  induction m as [|m IH]; intros k Hk; simpl; [reflexivity|].
  f_equal; [|apply IH; lia].
  unfold slice. rewrite skipn_all2 by lia. apply firstn_nil.
Qed.

(** With at least as many CPUs as files, every file gets a worker of its
    own, in order, and the remaining workers get empty chunks. *)
Theorem make_chunks_spread {A} (l : list A) (numCPUs : nat)
  (Hl : 0 < List.length l) (Hn : List.length l <= numCPUs) :
  make_chunks l numCPUs = map (fun x => [x]) l ++ repeat [] (numCPUs - List.length l).
Proof.
  unfold make_chunks. rewrite (ceil_div_one _ _ Hl Hn).
  replace numCPUs with (List.length l + (numCPUs - List.length l)) at 1 by lia.
  rewrite seq_app, map_app. f_equal.
  - exact (unit_slices l []).
  - apply empty_slices. lia.
Qed.

Lemma make_chunks_spread_witness :
  0 < List.length ["a"; "b"] /\ List.length ["a"; "b"] <= 4 /\
  make_chunks ["a"; "b"] 4 = [["a"]; ["b"]; []; []].
Proof.
  split; [simpl; lia|]. split; [simpl; lia|].
  rewrite (make_chunks_spread ["a"; "b"] 4 ltac:(simpl; lia) ltac:(simpl; lia)).
  reflexivity.
Defined.

(** ** A channel that breaks *)

Lemma copyBatch_step_trace (env : string -> FileIO) (file : string) (st : WState) :
  trace (snd (copyBatch_step env file st)) = trace st ++ file_calls env file /\
  (channel st = Some 0 ->
   fst (copyBatch_step env file st) = Err channel_closed /\
   posted (snd (copyBatch_step env file st)) = posted st /\
   channel (snd (copyBatch_step env file st)) = Some 0).
Proof.
  unfold copyBatch_step, copyFile, mtry, mbind, mthrow, ensureDir, stat, fs_copy,
    fs_copyFile, fs_call, of_option, postMessage, file_calls.
  destruct (env file) as [ed sz cp cpf]. simpl.
  destruct st as [ps ch tr]. simpl.
  destruct ed as [e|]; [|destruct sz as [size|e];
                         [destruct (N.ltb LARGE_FILE_THRESHOLD size);
                          [destruct cp as [e|] | destruct cpf as [e|]] | ]];
    destruct ch as [[|k]|]; simpl; rewrite <- ?app_assoc;
    (split; [reflexivity | intros H; try discriminate; repeat split]).
Qed.

Lemma copyBatch_break (env : string -> FileIO) (files : list string) : forall st k,
  channel st = Some k -> k < List.length files ->
  fst (copyBatch env files st) = Err channel_closed /\
  channel (snd (copyBatch env files st)) = Some 0 /\
  (exists evs, posted (snd (copyBatch env files st)) = posted st ++ evs /\
               Forall2 (event_for env) (firstn k files) evs) /\
  trace (snd (copyBatch env files st))
  = trace st ++ List.concat (map (file_calls env) (firstn (S k) files)).
Proof.
  induction files as [|f rest IH]; intros st k Hch Hk; simpl in Hk; [lia|].
  simpl. unfold mbind.
  destruct (copyBatch_step_trace env f st) as [Htr Hclosed].
  pose proof (copyBatch_step_spec env f st) as Hspec.
  destruct (copyBatch_step env f st) as [[u|e] s1] eqn:Estep; simpl in Htr.
  - simpl. destruct Hspec as [Hroom [Hch1 [ev [Hp1 Hev]]]].
    rewrite Hch in Hroom, Hch1. simpl in Hroom, Hch1.
    destruct k as [|k]; [lia|].
    destruct (IH s1 k ltac:(rewrite Hch1; f_equal; lia) ltac:(lia))
      as [Herr [Hch2 [[evs [Hp2 Hevs]] Htr2]]].
    split; [exact Herr|]. split; [exact Hch2|]. split.
    + exists (ev :: evs). split; [rewrite Hp2, Hp1, <- app_assoc; reflexivity|].
      simpl. constructor; assumption.
    + rewrite Htr2, Htr, <- app_assoc. reflexivity.
  - simpl. rewrite Hch in Hspec. inversion Hspec; subst k.
    destruct (Hclosed Hch) as [He [Hp1 Hch1]]. simpl in He, Hp1, Hch1.
    split; [exact He|]. split; [exact Hch1|]. split.
    + exists []. split; [rewrite Hp1, app_nil_r; reflexivity | constructor].
    + simpl. rewrite Htr, app_nil_r. reflexivity.
Qed.

(** A worker whose channel accepts only [k] more messages, fewer than its
    files, exits with code 1 having posted the outcome events of its
    first [k] files and nothing else (neither [done] nor [error]); it
    still went through the file-system steps of file [k + 1], which is
    copied but never reported, and touched no later file. *)
Theorem worker_break_partial (env : string -> FileIO) (chunk : list string) (k : nat)
  (Hk : k < List.length chunk) :
  let r := worker_main env chunk (init_state (Some k)) in
  fst r = 1 /\
  (exists evs, posted (snd r) = evs /\ Forall2 (event_for env) (firstn k chunk) evs) /\
  trace (snd r) = List.concat (map (file_calls env) (firstn (S k) chunk)).
Proof.
  cbv zeta. unfold worker_main, worker_body, mbind.
  rewrite run_batches_concat, concat_batches.
  destruct (copyBatch_break env chunk (init_state (Some k)) k eq_refl Hk)
    as [Herr [Hch [[evs [Hp Hevs]] Htr]]].
  destruct (copyBatch env chunk (init_state (Some k))) as [[u|e] s1]; simpl in Herr;
    [discriminate|]. inversion Herr; subst e. simpl in Hch, Hp, Htr |- *.
  rewrite (postMessage_closed _ _ Hch). simpl.
  split; [reflexivity|]. split; [exists evs; split; assumption | exact Htr].
Qed.

Lemma worker_break_partial_witness :
  1 < List.length ["a.txt"; "b.txt"; "c.txt"] /\
  posted (snd (worker_main all_ok ["a.txt"; "b.txt"; "c.txt"] (init_state (Some 1))))
  = [MCopied "a.txt"] /\
  trace (snd (worker_main all_ok ["a.txt"; "b.txt"; "c.txt"] (init_state (Some 1))))
  = [CEnsureDir "a.txt"; CStat "a.txt"; CCopyFile "a.txt";
     CEnsureDir "b.txt"; CStat "b.txt"; CCopyFile "b.txt"].
Proof.
  split; [simpl; lia|].
  destruct (worker_break_partial all_ok ["a.txt"; "b.txt"; "c.txt"] 1 ltac:(simpl; lia))
    as [_ [_ Htr]].
  split; [vm_compute; reflexivity|].
  rewrite Htr. reflexivity.
Defined.
